(** * rollbackcontext: the undo stack of [RollbackContext]

    A shallow embedding of [rollbackcontext/__init__.py] and of the scenarios
    of [tests/test_rollbackcontext.py].

    - The Python heap is a finite map from object identities to the one-element
      lists [[False]] that [_push] allocates: the [autoCommit] field of an
      [Undo] tuple is a reference to such a list, shared between the tuple kept
      in the deque and the tuple handed back to the caller.
    - The deque [_finally] is a list: [appendleft] is cons, [append] adds at
      the end, iteration runs from the head.
    - The callables are opaque to the context.  A call transforms an external
      world and either returns or raises; it does not touch the deque or the
      flag lists.  What is known about an exception is whether it is an
      instance of [Exception].
    - Every call made by the context is appended to the ghost list [invoked]
      of the machine, so that "was invoked" can be stated.
    - A read or a write of [autoCommit[0]] through a reference that is not in
      the heap, or whose list is empty, has no counterpart in the program (the
      list is born as [[False]] and only index 0 is ever assigned); such a
      step yields [None]. *)

From stdpp Require Import gmap list option strings.

(** ** What the context is run against *)

Class Runtime := {
  World : Type;
  Func : Type;
  Args : Type;
  Kwargs : Type;
  Exc : Type;
  (** [func( *args, **kwargs)]: the world afterwards, and the exception raised
      if any. *)
  call : Func → Args → Kwargs → World → World * option Exc;
  (** [isinstance(e, Exception)] *)
  isException : Exc → bool
}.

Section Embedding.
Context `{RT : Runtime}.

(** [class Undo(namedtuple('Undo', ['undo', 'autoCommit', 'args', 'kwargs']))] *)
Record Undo := mkUndo {
  undo : Func;
  autoCommit : nat;
  args : Args;
  kwargs : Kwargs
}.

(** The fields of a [RollbackContext] instance. *)
Record RollbackContext := mkRollbackContext {
  _finally : list Undo;
  _lastUndo : option Undo
}.

Record machine := mkMachine {
  heap : gmap nat (list bool);
  rollback : RollbackContext;
  world : World;
  invoked : list (Undo * option Exc)
}.

Definition set_heap (h : gmap nat (list bool)) (m : machine) : machine :=
  mkMachine h (rollback m) (world m) (invoked m).

Definition set_finally (q : list Undo) (m : machine) : machine :=
  mkMachine (heap m) (mkRollbackContext q (_lastUndo (rollback m)))
            (world m) (invoked m).

(** [autoCommit[0]] *)
Definition autoCommit_0 (h : gmap nat (list bool)) (u : Undo) : option bool :=
  h !! autoCommit u ≫= λ cell : list bool, cell !! 0.

(** [def setAutoCommit(self): self.autoCommit[0] = True] *)
Definition setAutoCommit (self : Undo) (m : machine) : option machine :=
  cell ← heap m !! autoCommit self;
  match cell with
  | [] => None
  | _ :: _ => Some (set_heap (<[autoCommit self := <[0 := true]> cell]> (heap m)) m)
  end.

(** [def __init__(self, ...)] *)
Definition __init__ (m : machine) : machine :=
  mkMachine (heap m) (mkRollbackContext [] None) (world m) (invoked m).

(** [def __enter__(self): return self] *)
Definition __enter__ (m : machine) : machine := m.

(** [def _push(self, func, toTop, args, kwargs)]: the list [[False]] is a new
    object, the tuple refers to it, and the tuple returned is the one stored. *)
Definition _push (func : Func) (toTop : bool) (args : Args) (kwargs : Kwargs)
    (m : machine) : machine * Undo :=
  let cell := fresh (dom (heap m)) in
  let undo := mkUndo func cell args kwargs in
  let m1 := set_heap (<[cell := [false]]> (heap m)) m in
  let q := _finally (rollback m1) in
  (set_finally (if toTop then undo :: q else q ++ [undo]) m1, undo).

Definition push (func : Func) (args : Args) (kwargs : Kwargs) (m : machine)
    : machine * Undo :=
  _push func true args kwargs m.

Definition pushBottom (func : Func) (args : Args) (kwargs : Kwargs)
    (m : machine) : machine * Undo :=
  _push func false args kwargs m.

(** [def commitAll(self): self._finally.clear()] *)
Definition commitAll (m : machine) : machine := set_finally [] m.

(** [func( *args, **kwargs)] for the fields of one tuple. *)
Definition invoke (u : Undo) (m : machine) : machine * option Exc :=
  let (w, r) := call (undo u) (args u) (kwargs u) (world m) in
  (mkMachine (heap m) (rollback m) w (invoked m ++ [(u, r)]), r).

(** How the [for] loop of [__exit__] ends: the deque is exhausted, with the
    value of [undoExcInfo]; or an exception that [except Exception] does not
    catch leaves the loop. *)
Inductive loop_end :=
  | Exhausted (undoExcInfo : option Exc)
  | Escaped (e : Exc).

(** [for func, autoCommit, args, kwargs in self._finally: ...] *)
Fixpoint for_finally (exc_type : option Exc) (items : list Undo)
    (undoExcInfo : option Exc) (m : machine) : option (machine * loop_end) :=
  match items with
  | [] => Some (m, Exhausted undoExcInfo)
  | u :: rest =>
      (* (exc_type is None) and autoCommit[0] *)
      skip ← match exc_type with
             | None => autoCommit_0 (heap m) u
             | Some _ => Some false
             end;
      if skip : bool then for_finally exc_type rest undoExcInfo m
      else
        let (m1, r) := invoke u m in
        match r with
        | None => for_finally exc_type rest undoExcInfo m1
        | Some e =>
            if isException e then
              (* keep the earliest exception info *)
              for_finally exc_type rest
                (match undoExcInfo with None => Some e | Some _ => undoExcInfo end)
                m1
            else Some (m1, Escaped e)
        end
  end.

(** [def __exit__(self, exc_type, exc_value, traceback)]: the machine
    afterwards and the exception raised, [None] when the method returns
    (it then returns [None], which is not true). *)
Definition __exit__ (exc_type : option Exc) (m : machine)
    : option (machine * option Exc) :=
  r ← for_finally exc_type (_finally (rollback m)) None m;
  match r.2 with
  | Escaped e => Some (r.1, Some e)
  | Exhausted undoExcInfo =>
      match exc_type, undoExcInfo with
      | None, Some e => Some (r.1, Some e)
      | _, _ => Some (r.1, None)
      end
  end.

(** The end of a [with] statement whose block finished with [exc]: an
    exception raised by [__exit__] replaces it; otherwise, [__exit__] having
    returned a false value, [exc] is raised again if there is one. *)
Definition with_exit (exc : option Exc) (m : machine)
    : option (machine * option Exc) :=
  r ← __exit__ exc m;
  Some (r.1, match r.2 with Some e => Some e | None => exc end).

(** ** Callers *)

(** One registration call of the protected block. *)
Record registration := mkRegistration {
  toTop : bool;
  r_func : Func;
  r_args : Args;
  r_kwargs : Kwargs
}.

Definition register (m : machine) (c : registration) : machine :=
  (_push (r_func c) (toTop c) (r_args c) (r_kwargs c) m).1.

Definition register_all (cs : list registration) (m : machine) : machine :=
  foldl register m cs.

(** A sequence of [rollback.push(func, ...)] calls. *)
Definition push_all (cs : list (Func * Args * Kwargs)) (m : machine) : machine :=
  foldl (λ m c, (push c.1.1 c.1.2 c.2 m).1) m cs.

(** A registration call of the protected block, by the method called. *)
Inductive registering :=
  | CallPush (func : Func) (args : Args) (kwargs : Kwargs)
  | CallPushBottom (func : Func) (args : Args) (kwargs : Kwargs).

Definition registering_step (m : machine) (c : registering) : machine :=
  match c with
  | CallPush func args kwargs => (push func args kwargs m).1
  | CallPushBottom func args kwargs => (pushBottom func args kwargs m).1
  end.

(** A protected block that makes the registration calls [cs], one after the
    other, and nothing else. *)
Definition protected_block (cs : list registering) (m : machine) : machine :=
  foldl registering_step m cs.

(** The calls registered with [push] in [cs], in the order of registration. *)
Fixpoint pushed (cs : list registering) : list (Func * Args * Kwargs) :=
  match cs with
  | [] => []
  | CallPush func args kwargs :: rest => (func, args, kwargs) :: pushed rest
  | CallPushBottom _ _ _ :: rest => pushed rest
  end.

(** The calls registered with [pushBottom] in [cs], in the order of
    registration. *)
Fixpoint pushedBottom (cs : list registering) : list (Func * Args * Kwargs) :=
  match cs with
  | [] => []
  | CallPush _ _ _ :: rest => pushedBottom rest
  | CallPushBottom func args kwargs :: rest =>
      (func, args, kwargs) :: pushedBottom rest
  end.

(** The call a tuple stands for. *)
Definition bound_call (u : Undo) : Func * Args * Kwargs :=
  (undo u, args u, kwargs u).

Definition registered_call (c : registration) : Func * Args * Kwargs :=
  (r_func c, r_args c, r_kwargs c).

(** The world after a sequence of calls, none of which is stopped by the
    exception of another. *)
Definition run_calls (cs : list (Func * Args * Kwargs)) (w : World) : World :=
  foldl (λ w c, (call c.1.1 c.1.2 c.2 w).1) w cs.

(** One step of a use of the context: a registration, [setAutoCommit] on a
    tuple, [commitAll], or a call of [__exit__]. *)
Inductive op :=
  | Register (c : registration)
  | SetAutoCommit (u : Undo)
  | CommitAll
  | Exit (exc_type : option Exc).

Definition step (m : machine) (o : op) : option machine :=
  match o with
  | Register c => Some (register m c)
  | SetAutoCommit u => setAutoCommit u m
  | CommitAll => Some (commitAll m)
  | Exit exc_type => fst <$> __exit__ exc_type m
  end.

(** A sequence of steps, stopped by the first one that has no result. *)
Fixpoint run_ops (os : list op) (m : machine) : option machine :=
  match os with
  | [] => Some m
  | o :: rest => step m o ≫= run_ops rest
  end.

Definition is_exit (o : op) : bool :=
  match o with
  | Exit _ => true
  | _ => false
  end.

(** ** Vocabulary of the statements *)

(** The [continue] of the loop: taken for [u] when the block did not raise and
    the flag of [u] is set. *)
Definition skipped (exc_type : option Exc) (h : gmap nat (list bool))
    (u : Undo) : bool :=
  match exc_type with
  | None => default false (autoCommit_0 h u)
  | Some _ => false
  end.

(** The exception [__exit__] raises after a run of the loop. *)
Definition raised_by_exit (exc : option Exc) (out : loop_end) : option Exc :=
  match out with
  | Escaped e => Some e
  | Exhausted undoExcInfo =>
      match exc, undoExcInfo with
      | None, Some e => Some e
      | _, _ => None
      end
  end.

(** The first exception in a list of calls made. *)
Fixpoint first_raised (tr : list (Undo * option Exc)) : option Exc :=
  match tr with
  | [] => None
  | (_, Some e) :: _ => Some e
  | (_, None) :: rest => first_raised rest
  end.

(** The calls of the tuples [us], one after the other from the world [w],
    each with what it raised. *)
Fixpoint trace_of (us : list Undo) (w : World) : list (Undo * option Exc) :=
  match us with
  | [] => []
  | u :: rest =>
      let r := call (undo u) (args u) (kwargs u) w in
      (u, r.2) :: trace_of rest r.1
  end.

(** The tuples of [items] the loop does not skip. *)
Definition played (exc_type : option Exc) (h : gmap nat (list bool))
    (items : list Undo) : list Undo :=
  filter (λ u, skipped exc_type h u = false) items.

(** Every exception in [tr] is an instance of [Exception]. *)
Definition caught (tr : list (Undo * option Exc)) : Prop :=
  Forall (λ ev, ∀ e, ev.2 = Some e → isException e = true) tr.

(** [x] is invoked at an earlier position of [tr] than [y]. *)
Definition runs_before (x y : Undo) (tr : list (Undo * option Exc)) : Prop :=
  ∃ i j, i < j ∧ fst <$> tr !! i = Some x ∧ fst <$> tr !! j = Some y.

(** How many times the tuple whose flag list is [l] occurs in [tr]. *)
Definition times_invoked (l : nat) (tr : list (Undo * option Exc)) : nat :=
  length (filter (λ ev, autoCommit ev.1 = l) tr).

(** Every tuple of the deque refers to a flag list with an element 0, and no
    two tuples refer to the same list. *)
Definition heap_ok (m : machine) : Prop :=
  Forall (λ u, is_Some (autoCommit_0 (heap m) u)) (_finally (rollback m))
  ∧ NoDup (autoCommit <$> _finally (rollback m)).

(** No flag of the deque has been set. *)
Definition unflagged (m : machine) : Prop :=
  Forall (λ u, autoCommit_0 (heap m) u = Some false) (_finally (rollback m)).

(** No call of a tuple of [q] raises, in any world, an exception that is not
    an instance of [Exception]. *)
Definition only_Exceptions (q : list Undo) : Prop :=
  ∀ u w e, u ∈ q →
    (call (undo u) (args u) (kwargs u) w).2 = Some e → isException e = true.

(** No call in [tr] raised. *)
Definition all_returned (tr : list (Undo * option Exc)) : Prop :=
  Forall (λ ev, ev.2 = None) tr.

End Embedding.

(** ** The runtime of [tests/test_rollbackcontext.py] *)

Module Tests.

(** The exception classes of the tests and the two built-in ones a call with
    these methods can meet; an instance is identified with its class. *)
Inductive exception :=
  | FirstError
  | SecondError
  | TypeError
  | KeyboardInterrupt.

Inductive value :=
  | VNone
  | VInt (n : Z)
  | VClass (c : exception).

(** The bound methods [self._append] and [self._raise]. *)
Inductive method :=
  | _append
  | _raise.

(** Binding of the arguments of a call to a method whose signature is
    [(self, name=dflt)]. *)
Definition bind1 (name : string) (dflt : value) (args : list value)
    (kwargs : list (string * value)) : option value :=
  match args, kwargs with
  | [], [] => Some dflt
  | [v], [] => Some v
  | [], [(k, v)] => if decide (k = name) then Some v else None
  | _, _ => None
  end.

(** [def _append(self, value=None): self._r.append(value)] and
    [def _raise(self, exception=FirstError): raise exception()], over the
    list [self._r]. *)
Definition test_call (f : method) (args : list value)
    (kwargs : list (string * value)) (_r : list value)
    : list value * option exception :=
  match f with
  | _append =>
      match bind1 "value" VNone args kwargs with
      | Some v => (_r ++ [v], None)
      | None => (_r, Some TypeError)
      end
  | _raise =>
      match bind1 "exception" (VClass FirstError) args kwargs with
      | Some (VClass c) => (_r, Some c)
      | _ => (_r, Some TypeError)
      end
  end.

(** [KeyboardInterrupt] derives from [BaseException] only. *)
Definition test_isException (e : exception) : bool :=
  match e with
  | KeyboardInterrupt => false
  | _ => true
  end.

Definition test_runtime : Runtime :=
  {| World := list value;
     Func := method;
     Args := list value;
     Kwargs := list (string * value);
     Exc := exception;
     call := test_call;
     isException := test_isException |}.

#[local] Existing Instance test_runtime.

(** [setUp], and the [RollbackContext()] of the [with] statement. *)
Definition setUp : machine :=
  __enter__ (__init__ (mkMachine ∅ (mkRollbackContext [] None) [] [])).

(** What a scenario leaves: [self._r] and the exception that leaves the
    [with] statement. *)
Definition outcome (r : option (machine * option exception))
    : option (list value * option exception) :=
  (λ p, (world p.1, p.2)) <$> r.

(** The machine when the protected block of each test ends. *)

Definition rollback_block : machine :=
  let m := (push _append [VInt 1] [] setUp).1 in
  (push _append [VInt 0] [] m).1.

Definition rollback_bottom_block : machine :=
  let m := (pushBottom _append [VInt 1] [] setUp).1 in
  let m := (push _append [VInt 0] [] m).1 in
  (pushBottom _append [VInt 2] [] m).1.

(** The block raises before its third registration. *)
Definition raise_block : machine :=
  let m := (push _append [VInt 2] [] setUp).1 in
  (push _append [VInt 1] [] m).1.

Definition raise_undo_block : machine :=
  let m := (push _append [VInt 1] [] setUp).1 in
  let m := (push _raise [] [] m).1 in
  (push _append [VInt 0] [] m).1.

Definition raise_prefer_original_block : machine :=
  (push _raise [VClass SecondError] [] setUp).1.

Definition raise_prefer_first_undo_block : machine :=
  let m := (push _raise [VClass SecondError] [] setUp).1 in
  (push _raise [VClass FirstError] [] m).1.


(** The same with [.setAutoCommit()] on the second, where the tests call it. *)
Definition autocommit_block : option machine :=
  let m := (push _append [VInt 2] [] setUp).1 in
  let p := push _append [VInt 1] [] m in
  m ← setAutoCommit p.2 p.1;
  Some (push _append [VInt 0] [] m).1.

Definition commitAll_block : machine :=
  let m := (push _append [VInt 2] [] setUp).1 in
  let m := (push _append [VInt 1] [] m).1 in
  let m := (push _append [VInt 0] [] m).1 in
  commitAll m.

(** The tests: the block, then the end of the [with] statement. *)

Definition test_rollback : option (machine * option exception) :=
  with_exit None rollback_block.

Definition test_rollback_bottom : option (machine * option exception) :=
  with_exit None rollback_bottom_block.

Definition test_raise : option (machine * option exception) :=
  with_exit (Some FirstError) raise_block.

Definition test_raise_undo : option (machine * option exception) :=
  with_exit None raise_undo_block.

Definition test_raise_prefer_original : option (machine * option exception) :=
  with_exit (Some FirstError) raise_prefer_original_block.

Definition test_raise_prefer_first_undo : option (machine * option exception) :=
  with_exit None raise_prefer_first_undo_block.

Definition test_autocommit : option (machine * option exception) :=
  autocommit_block ≫= with_exit None.

Definition test_raise_no_commit : option (machine * option exception) :=
  autocommit_block ≫= with_exit (Some FirstError).

Definition test_raise_undo_autocommit : option (machine * option exception) :=
  m ← autocommit_block;
  with_exit None (push _raise [VClass FirstError] [] m).1.

Definition test_commitAll : option (machine * option exception) :=
  with_exit None commitAll_block.

(** Scenarios beyond the test file. *)

(** One registration. *)
Definition one_push : machine * Undo :=
  push _append [VInt 1] [] setUp.

(** Two registrations at the bottom. *)
Definition bottom_1 : machine * Undo :=
  pushBottom _append [VInt 1] [] setUp.

Definition bottom_2 : machine * Undo :=
  pushBottom _append [VInt 2] [] bottom_1.1.

(** An undo that appends, then one that raises [KeyboardInterrupt]: the
    second is played first. *)
Definition interrupt_1 : machine * Undo :=
  push _append [VInt 1] [] setUp.

Definition interrupt_2 : machine * Undo :=
  push _raise [VClass KeyboardInterrupt] [] interrupt_1.1.


(** An undo that raises [FirstError] is played before one that raises
    [KeyboardInterrupt], itself played before one that appends. *)
Definition mixed_failures : machine :=
  let m := (push _append [VInt 1] [] setUp).1 in
  let m := (push _raise [VClass KeyboardInterrupt] [] m).1 in
  (push _raise [VClass FirstError] [] m).1.

(** The two [push] calls of [test_rollback]. *)
Definition two_pushes : list (method * list value * list (string * value)) :=
  [(_append, [VInt 1], []); (_append, [VInt 0], [])].

(** The three registrations of [test_rollback_bottom]. *)
Definition bottom_top_bottom : list registration :=
  [mkRegistration false _append [VInt 1] [];
   mkRegistration true _append [VInt 0] [];
   mkRegistration false _append [VInt 2] []].

(** The three registration calls of [test_rollback_bottom]. *)
Definition rollback_bottom_calls : list registering :=
  [CallPushBottom _append [VInt 1] [];
   CallPush _append [VInt 0] [];
   CallPushBottom _append [VInt 2] []].

(** A use of the context across an exit and a [commitAll]. *)
Definition session : list op :=
  [Register (mkRegistration true _append [VInt 1] []);
   Register (mkRegistration false _raise [] []);
   SetAutoCommit one_push.2;
   Exit None;
   CommitAll;
   Register (mkRegistration true _append [VInt 2] []);
   Exit (Some FirstError)].

(** The same without the exits. *)
Definition quiet_session : list op :=
  [Register (mkRegistration true _append [VInt 1] []);
   Register (mkRegistration false _raise [] []);
   SetAutoCommit one_push.2;
   CommitAll;
   Register (mkRegistration true _append [VInt 2] [])].

(** One registration, with its flag set. *)
Definition flagged : machine :=
  default one_push.1 (setAutoCommit one_push.2 one_push.1).

(** A registration, [commitAll], another registration. *)
Definition after_commitAll : machine :=
  (push _append [VInt 2] [] (commitAll one_push.1)).1.

End Tests.

(** * Properties *)

Section Properties.
Context `{RT : Runtime}.
Implicit Types (m : machine) (u v : Undo) (q items us : list Undo).
Implicit Types (exc ei : option Exc) (tr : list (Undo * option Exc)).

(** ** The loop *)

Lemma trace_of_fst us w : (trace_of us w).*1 = us.
Proof.
  revert w. induction us as [|u us IH]; intros w; simpl; [done|].
  by rewrite IH.
Qed.

Lemma run_calls_cons u us w :
  run_calls (bound_call <$> (u :: us)) w
  = run_calls (bound_call <$> us) (call (undo u) (args u) (kwargs u) w).1.
Proof. done. Qed.

Lemma trace_of_app us vs w :
  trace_of (us ++ vs) w
  = trace_of us w ++ trace_of vs (run_calls (bound_call <$> us) w).
Proof.
  revert w. induction us as [|u us IH]; intros w; [done|].
  cbn [app trace_of]. rewrite IH. done.
Qed.

Lemma skipped_read exc h u b :
  match exc with None => autoCommit_0 h u | Some _ => Some false end = Some b →
  skipped exc h u = b.
Proof. destruct exc; simpl; [congruence|]. by intros ->. Qed.

Lemma played_cons exc h u items :
  played exc h (u :: items)
  = if skipped exc h u then played exc h items else u :: played exc h items.
Proof.
  unfold played. rewrite filter_cons.
  destruct (skipped exc h u); by case_decide.
Qed.

Lemma first_raised_cons u r tr :
  first_raised ((u, r) :: tr)
  = match r with Some e => Some e | None => first_raised tr end.
Proof. done. Qed.

(** What a run of the loop that ends has done. *)
Lemma for_finally_spec items : ∀ exc ei m m' out,
  for_finally exc items ei m = Some (m', out) →
  heap m' = heap m ∧ rollback m' = rollback m ∧
  ∃ us,
    invoked m' = invoked m ++ trace_of us (world m) ∧
    world m' = run_calls (bound_call <$> us) (world m) ∧
    match out with
    | Exhausted ei' =>
        us = played exc (heap m) items ∧
        caught (trace_of us (world m)) ∧
        ei' = match ei with
              | Some _ => ei
              | None => first_raised (trace_of us (world m))
              end
    | Escaped e =>
        isException e = false ∧
        ∃ pre u post tr0,
          items = pre ++ u :: post ∧
          us = played exc (heap m) pre ++ [u] ∧
          skipped exc (heap m) u = false ∧
          trace_of us (world m) = tr0 ++ [(u, Some e)] ∧
          caught tr0
    end.
Proof.
  induction items as [|u items IH]; intros exc ei m m' out Hrun.
  - simpl in Hrun. injection Hrun as <- <-.
    split; [done|]. split; [done|]. exists []. simpl.
    rewrite app_nil_r. split; [done|]. split; [done|].
    split; [done|]. split; [constructor|]. by destruct ei.
  - cbn [for_finally] in Hrun.
    destruct (match exc with None => autoCommit_0 (heap m) u | Some _ => Some false end)
      as [skip|] eqn:Hread; [|done].
    apply skipped_read in Hread. cbn [mbind option_bind] in Hrun.
    destruct skip.
    { apply IH in Hrun as (Hh & Hr & us & Hinv & Hw & Hout).
      split; [done|]. split; [done|]. exists us.
      split; [done|]. split; [done|].
      destruct out as [ei'|e].
      - by rewrite played_cons, Hread.
      - destruct Hout as (He & pre & u' & post & tr0 & -> & -> & Hs & Htr & Hc).
        split; [done|]. exists (u :: pre), u', post, tr0.
        by rewrite played_cons, Hread. }
    unfold invoke in Hrun.
    destruct (call (undo u) (args u) (kwargs u) (world m)) as [w r] eqn:Hcall.
    set (m1 := mkMachine (heap m) (rollback m) w (invoked m ++ [(u, r)])) in Hrun.
    assert (Hstep : ∀ us', trace_of (u :: us') (world m) = (u, r) :: trace_of us' w).
    { intros us'. cbn [trace_of]. by rewrite Hcall. }
    assert (Hworld : ∀ us', run_calls (bound_call <$> (u :: us')) (world m)
                            = run_calls (bound_call <$> us') w).
    { intros us'. rewrite run_calls_cons. by rewrite Hcall. }
    destruct r as [e|].
    + destruct (isException e) eqn:He.
      * apply IH in Hrun as (Hh & Hr & us & Hinv & Hw & Hout).
        split; [done|]. split; [done|]. exists (u :: us).
        rewrite Hstep, Hworld. cbn [heap world invoked m1] in *.
        split; [by rewrite Hinv, <- app_assoc|]. split; [done|].
        destruct out as [ei'|e'].
        -- destruct Hout as (-> & Hc & ->).
           rewrite played_cons, Hread. split; [done|].
           split; [constructor; [|done]; simpl; congruence|].
           rewrite first_raised_cons. by destruct ei.
        -- destruct Hout as (He' & pre & u' & post & tr0 & -> & -> & Hs & Htr & Hc).
           split; [done|]. exists (u :: pre), u', post, ((u, Some e) :: tr0).
           rewrite played_cons, Hread, Htr. repeat split; try done.
           constructor; [|done]. simpl. congruence.
      * injection Hrun as <- <-. cbn [heap rollback world invoked m1].
        split; [done|]. split; [done|]. exists [u].
        rewrite Hstep, Hworld. simpl. split; [done|]. split; [done|].
        split; [done|]. exists [], u, items, [].
        repeat split; try done. constructor.
    + apply IH in Hrun as (Hh & Hr & us & Hinv & Hw & Hout).
      split; [done|]. split; [done|]. exists (u :: us).
      rewrite Hstep, Hworld. cbn [heap world invoked m1] in *.
      split; [by rewrite Hinv, <- app_assoc|]. split; [done|].
      destruct out as [ei'|e'].
      * destruct Hout as (-> & Hc & ->).
        rewrite played_cons, Hread. split; [done|].
        split; [constructor; [|done]; simpl; congruence|].
        by rewrite first_raised_cons.
      * destruct Hout as (He' & pre & u' & post & tr0 & -> & -> & Hs & Htr & Hc).
        split; [done|]. exists (u :: pre), u', post, ((u, None) :: tr0).
        rewrite played_cons, Hread, Htr. repeat split; try done.
        constructor; [|done]. simpl. congruence.
Qed.

(** With every flag list in place the loop ends. *)
Lemma for_finally_total items : ∀ exc ei m,
  Forall (λ u, is_Some (autoCommit_0 (heap m) u)) items →
  is_Some (for_finally exc items ei m).
Proof.
  induction items as [|u items IH]; intros exc ei m Hok; [by eexists|].
  apply Forall_cons in Hok as [[b Hb] Hok]. cbn [for_finally].
  assert (∃ skip, match exc with None => autoCommit_0 (heap m) u
                  | Some _ => Some false end = Some skip) as [skip ->].
  { destruct exc; eauto. }
  cbn [mbind option_bind]. destruct skip; [by apply IH|].
  unfold invoke. destruct (call _ _ _ _) as [w [e|]]; [|by apply IH].
  destruct (isException e); [by apply IH | by eexists].
Qed.

Lemma exit_unfold exc m m' out :
  for_finally exc (_finally (rollback m)) None m = Some (m', out) →
  __exit__ exc m = Some (m', raised_by_exit exc out).
Proof.
  intros Hrun. unfold __exit__. rewrite Hrun. cbn [mbind option_bind fst snd].
  destruct out as [[e|]|e]; destruct exc; done.
Qed.

Lemma exit_runs exc m :
  heap_ok m →
  ∃ m' out, for_finally exc (_finally (rollback m)) None m = Some (m', out).
Proof.
  intros [Hok _].
  destruct (for_finally_total (_finally (rollback m)) exc None m Hok) as [[m' out] H].
  eauto.
Qed.

(** A loop over tuples that raise instances of [Exception] only is never
    left early. *)
Lemma for_finally_exhausts items exc ei m m' out :
  only_Exceptions items →
  for_finally exc items ei m = Some (m', out) →
  ∃ ei', out = Exhausted ei'.
Proof.
  intros Honly Hrun. destruct out as [ei'|e]; [by eexists|].
  apply for_finally_spec in Hrun as (_ & _ & us & _ & _ & He & Hesc).
  destruct Hesc as (pre & u & post & tr0 & -> & -> & _ & Htr & _).
  rewrite trace_of_app in Htr. cbn [trace_of] in Htr.
  apply app_inj_2 in Htr as [_ Htr]; [|done].
  injection Htr as Htr.
  apply (Honly u) in Htr; [congruence|].
  apply elem_of_app. right. apply elem_of_cons. by left.
Qed.

(** ** The flag lists *)

Lemma heap_ok_init m : heap_ok (__init__ m).
Proof. split; simpl; constructor. Qed.

Lemma autoCommit_0_dom h u : is_Some (autoCommit_0 h u) → autoCommit u ∈ dom h.
Proof.
  unfold autoCommit_0. intros [b Hb]. apply elem_of_dom.
  destruct (h !! autoCommit u); [by eexists | done].
Qed.

Lemma fresh_cell (h : gmap nat (list bool)) : h !! fresh (dom h) = None.
Proof. apply not_elem_of_dom. apply is_fresh. Qed.

Lemma push_other_flags func t a k m v :
  is_Some (autoCommit_0 (heap m) v) →
  autoCommit_0 (heap (_push func t a k m).1) v = autoCommit_0 (heap m) v.
Proof.
  intros Hv. unfold autoCommit_0. cbn.
  rewrite lookup_insert_ne; [done|].
  intros Heq. apply autoCommit_0_dom in Hv. rewrite <- Heq in Hv.
  by apply is_fresh in Hv.
Qed.

Lemma push_own_flag func t a k m :
  autoCommit_0 (heap (_push func t a k m).1) (_push func t a k m).2 = Some false.
Proof. unfold autoCommit_0. cbn. by rewrite lookup_insert_eq. Qed.

Lemma push_finally func t a k m :
  _finally (rollback (_push func t a k m).1)
  = if t then (_push func t a k m).2 :: _finally (rollback m)
    else _finally (rollback m) ++ [(_push func t a k m).2].
Proof. done. Qed.

Lemma heap_ok_push func t a k m : heap_ok m → heap_ok (_push func t a k m).1.
Proof.
  intros [Hcells Hnd].
  assert (Hnew : autoCommit (_push func t a k m).2 ∉ autoCommit <$> _finally (rollback m)).
  { intros (v & Heq & Hv)%list_elem_of_fmap.
    rewrite Forall_forall in Hcells. apply Hcells, autoCommit_0_dom in Hv.
    rewrite <- Heq in Hv. cbn in Hv. by apply is_fresh in Hv. }
  assert (Hold : Forall (λ u, is_Some (autoCommit_0 (heap (_push func t a k m).1) u))
                        (_finally (rollback m))).
  { eapply Forall_impl; [exact Hcells|]. intros v Hv. cbv beta.
    by rewrite push_other_flags. }
  assert (Hown : is_Some (autoCommit_0 (heap (_push func t a k m).1)
                                       (_push func t a k m).2)).
  { rewrite push_own_flag. by eexists. }
  split; rewrite push_finally; destruct t.
  - by constructor.
  - apply Forall_app. split; [done|]. by constructor.
  - rewrite fmap_cons. by constructor.
  - rewrite fmap_app. apply NoDup_app. split; [done|]. split.
    + intros l Hl ->%list_elem_of_singleton. done.
    + apply NoDup_singleton.
Qed.

Lemma setAutoCommit_total u m :
  is_Some (autoCommit_0 (heap m) u) → is_Some (setAutoCommit u m).
Proof.
  unfold autoCommit_0, setAutoCommit. intros [b Hb].
  destruct (heap m !! autoCommit u) as [[|b' cell]|]; done.
Qed.

Lemma setAutoCommit_spec u m m1 :
  setAutoCommit u m = Some m1 →
  rollback m1 = rollback m ∧ world m1 = world m ∧ invoked m1 = invoked m ∧
  ∀ v, autoCommit_0 (heap m1) v
       = if decide (autoCommit v = autoCommit u) then Some true
         else autoCommit_0 (heap m) v.
Proof.
  unfold setAutoCommit. intros Hset.
  destruct (heap m !! autoCommit u) as [[|b cell]|] eqn:Hcell; try done.
  injection Hset as <-. repeat split; try done.
  intros v. unfold autoCommit_0. cbn [heap set_heap]. case_decide as Hv.
  - rewrite Hv. by rewrite lookup_insert_eq.
  - by rewrite lookup_insert_ne.
Qed.

Lemma heap_ok_setAutoCommit u m m1 :
  heap_ok m → setAutoCommit u m = Some m1 → heap_ok m1.
Proof.
  intros [Hcells Hnd] (Hr & _ & _ & Hflags)%setAutoCommit_spec.
  split; rewrite Hr; [|done].
  eapply Forall_impl; [exact Hcells|]. intros v Hv. cbv beta.
  rewrite Hflags. by case_decide.
Qed.

(** ** Registration *)

Lemma register_all_cons c cs m :
  register_all (c :: cs) m = register_all cs (register m c).
Proof. done. Qed.

Lemma register_all_frame cs : ∀ m,
  world (register_all cs m) = world m ∧
  invoked (register_all cs m) = invoked m ∧
  _lastUndo (rollback (register_all cs m)) = _lastUndo (rollback m).
Proof.
  induction cs as [|c cs IH]; intros m; [done|].
  rewrite register_all_cons. destruct (IH (register m c)) as (-> & -> & ->).
  done.
Qed.

Lemma heap_ok_register_all cs : ∀ m, heap_ok m → heap_ok (register_all cs m).
Proof.
  induction cs as [|c cs IH]; intros m Hok; [done|].
  rewrite register_all_cons. apply IH. by apply heap_ok_push.
Qed.

(** The deque after a sequence of registrations: the tuples pushed to the top
    in reverse, what was there, the tuples pushed to the bottom in order. *)
Lemma register_all_finally cs : ∀ m, ∃ tops bottoms,
  _finally (rollback (register_all cs m))
    = tops ++ _finally (rollback m) ++ bottoms ∧
  bound_call <$> tops
    = reverse (registered_call <$> filter (λ c, toTop c = true) cs) ∧
  bound_call <$> bottoms
    = registered_call <$> filter (λ c, toTop c = false) cs.
Proof.
  induction cs as [|c cs IH]; intros m.
  { exists [], []. by rewrite app_nil_r. }
  rewrite register_all_cons.
  destruct (IH (register m c)) as (tops & bottoms & Hq & Htops & Hbottoms).
  unfold register in Hq at 2. rewrite push_finally in Hq.
  set (u := (_push (r_func c) (toTop c) (r_args c) (r_kwargs c) m).2) in Hq.
  rewrite !filter_cons. destruct (toTop c) eqn:Hc.
  - exists (tops ++ [u]), bottoms.
    rewrite decide_True, decide_False by done.
    split; [by rewrite Hq, <- !app_assoc|]. split; [|done].
    rewrite fmap_app, (fmap_cons registered_call), reverse_cons, Htops. done.
  - exists tops, (u :: bottoms).
    rewrite decide_False, decide_True by done.
    split; [by rewrite Hq, <- !app_assoc|]. split; [done|].
    rewrite !fmap_cons, Hbottoms. done.
Qed.

Lemma unflagged_push func t a k m :
  unflagged m → unflagged (_push func t a k m).1.
Proof.
  intros Hm. unfold unflagged. rewrite push_finally.
  assert (Hold : Forall (λ u, autoCommit_0 (heap (_push func t a k m).1) u = Some false)
                        (_finally (rollback m))).
  { eapply Forall_impl; [exact Hm|]. intros v Hv. cbv beta.
    rewrite push_other_flags; [done|]. rewrite Hv. by eexists. }
  pose proof (push_own_flag func t a k m) as Hown.
  destruct t; [by constructor|].
  apply Forall_app. split; [done|]. by constructor.
Qed.

Lemma unflagged_register_all cs : ∀ m,
  unflagged m → unflagged (register_all cs m).
Proof.
  induction cs as [|c cs IH]; intros m Hm; [done|].
  rewrite register_all_cons. apply IH. by apply unflagged_push.
Qed.

Lemma played_unflagged exc m :
  unflagged m → played exc (heap m) (_finally (rollback m)) = _finally (rollback m).
Proof.
  unfold unflagged, played. generalize (_finally (rollback m)) as q.
  induction q as [|u q IH]; intros Hq; [done|].
  apply Forall_cons in Hq as [Hu Hq]. rewrite filter_cons, IH by done.
  rewrite decide_True; [done|]. unfold skipped. rewrite Hu. by destruct exc.
Qed.

Lemma push_all_register_all cs : ∀ m,
  push_all cs m
  = register_all ((λ c, mkRegistration true c.1.1 c.1.2 c.2) <$> cs) m.
Proof.
  induction cs as [|c cs IH]; intros m; [done|].
  rewrite fmap_cons, register_all_cons. unfold push_all in *.
  cbn [foldl]. rewrite IH. done.
Qed.

Lemma trace_of_all_returned us : ∀ w,
  all_returned (trace_of us w) →
  trace_of us w = (λ u, (u, None)) <$> us.
Proof.
  induction us as [|u us IH]; intros w Hret; [done|].
  cbn [trace_of] in *. apply Forall_cons in Hret as [Hu Hret].
  cbn [snd] in Hu. rewrite Hu, fmap_cons. f_equal. by apply IH.
Qed.

Lemma first_raised_all_returned tr :
  first_raised tr = None ↔ all_returned tr.
Proof.
  unfold all_returned. induction tr as [|[u [e'|]] tr IH]; cbn [first_raised].
  - split; [constructor|done].
  - split; [done|]. by intros [? _]%Forall_cons.
  - rewrite IH. split; [by constructor|]. by intros [_ ?]%Forall_cons.
Qed.

Lemma protected_block_cons c cs m :
  protected_block (c :: cs) m = protected_block cs (registering_step m c).
Proof. done. Qed.

Lemma registering_step_push m c :
  ∃ func t a k,
    registering_step m c = (_push func t a k m).1 ∧
    _finally (rollback (registering_step m c))
      = (if t then (_push func t a k m).2 :: _finally (rollback m)
         else _finally (rollback m) ++ [(_push func t a k m).2]) ∧
    bound_call (_push func t a k m).2 = (func, a, k) ∧
    pushed (c :: []) = (if t then [(func, a, k)] else []) ∧
    pushedBottom (c :: []) = (if t then [] else [(func, a, k)]).
Proof.
  destruct c as [func a k|func a k];
    [exists func, true, a, k | exists func, false, a, k]; done.
Qed.

Lemma pushed_cons c cs : pushed (c :: cs) = pushed [c] ++ pushed cs.
Proof. by destruct c. Qed.

Lemma pushedBottom_cons c cs :
  pushedBottom (c :: cs) = pushedBottom [c] ++ pushedBottom cs.
Proof. by destruct c. Qed.

Lemma protected_block_frame cs : ∀ m,
  world (protected_block cs m) = world m ∧
  invoked (protected_block cs m) = invoked m.
Proof.
  induction cs as [|c cs IH]; intros m; [done|].
  rewrite protected_block_cons. destruct (IH (registering_step m c)) as (-> & ->).
  by destruct c.
Qed.

Lemma heap_ok_protected_block cs : ∀ m,
  heap_ok m → heap_ok (protected_block cs m).
Proof.
  induction cs as [|c cs IH]; intros m Hok; [done|].
  rewrite protected_block_cons. apply IH.
  destruct (registering_step_push m c) as (func & t & a & k & -> & _).
  by apply heap_ok_push.
Qed.

Lemma unflagged_protected_block cs : ∀ m,
  unflagged m → unflagged (protected_block cs m).
Proof.
  induction cs as [|c cs IH]; intros m Hm; [done|].
  rewrite protected_block_cons. apply IH.
  destruct (registering_step_push m c) as (func & t & a & k & -> & _).
  by apply unflagged_push.
Qed.

(** The deque after a protected block: the tuples registered with [push] in
    reverse, what was there, the tuples registered with [pushBottom] in
    order. *)
Lemma protected_block_finally cs : ∀ m, ∃ tops bottoms,
  _finally (rollback (protected_block cs m))
    = tops ++ _finally (rollback m) ++ bottoms ∧
  bound_call <$> tops = reverse (pushed cs) ∧
  bound_call <$> bottoms = pushedBottom cs.
Proof.
  induction cs as [|c cs IH]; intros m.
  { exists [], []. by rewrite app_nil_r. }
  rewrite protected_block_cons, (pushed_cons c cs), (pushedBottom_cons c cs).
  destruct (IH (registering_step m c)) as (tops & bottoms & Hq & Htops & Hbottoms).
  destruct (registering_step_push m c)
    as (func & t & a & k & _ & Hstep & Hu & Hp & Hb).
  rewrite Hstep in Hq. rewrite Hp, Hb.
  set (u := (_push func t a k m).2) in *. destruct t.
  - exists (tops ++ [u]), bottoms.
    split; [by rewrite Hq, <- !app_assoc|]. split; [|done].
    by rewrite fmap_app, reverse_app, Htops, fmap_cons, Hu.
  - exists tops, (u :: bottoms).
    split; [by rewrite Hq, <- !app_assoc|]. split; [by rewrite app_nil_l|].
    by rewrite fmap_cons, Hu, Hbottoms.
Qed.

(** ** Scope exit *)

Lemma with_exit_unfold exc m m' r :
  __exit__ exc m = Some (m', r) →
  with_exit exc m = Some (m', match r with Some e => Some e | None => exc end).
Proof. intros H. unfold with_exit. by rewrite H. Qed.

(** What [__exit__] does on a machine whose flag lists are in place. *)
Lemma exit_spec exc m :
  heap_ok m →
  ∃ m' out us,
    __exit__ exc m = Some (m', raised_by_exit exc out) ∧
    heap m' = heap m ∧ rollback m' = rollback m ∧
    invoked m' = invoked m ++ trace_of us (world m) ∧
    world m' = run_calls (bound_call <$> us) (world m) ∧
    match out with
    | Exhausted ei' =>
        us = played exc (heap m) (_finally (rollback m)) ∧
        caught (trace_of us (world m)) ∧
        ei' = first_raised (trace_of us (world m))
    | Escaped e =>
        isException e = false ∧
        ∃ pre u post tr0,
          _finally (rollback m) = pre ++ u :: post ∧
          us = played exc (heap m) pre ++ [u] ∧
          skipped exc (heap m) u = false ∧
          trace_of us (world m) = tr0 ++ [(u, Some e)] ∧
          caught tr0
    end.
Proof.
  intros Hok. destruct (exit_runs exc m Hok) as (m' & out & Hrun).
  exists m', out. pose proof (exit_unfold _ _ _ _ Hrun) as Hexit.
  apply for_finally_spec in Hrun as (Hh & Hr & us & Hinv & Hw & Hout).
  exists us. repeat (split; [done|]). done.
Qed.

(** A clean exit with no flag set: if none of the calls it makes raises, it
    has invoked the whole deque, in its order, and returns. *)
Lemma quiet_playback m :
  heap_ok m → unflagged m →
  ∃ m' r tr,
    __exit__ None m = Some (m', r) ∧
    invoked m' = invoked m ++ tr ∧
    (all_returned tr →
       r = None ∧
       tr = (λ u, (u, None)) <$> _finally (rollback m) ∧
       world m' = run_calls (bound_call <$> _finally (rollback m)) (world m)).
Proof.
  intros Hok Hun.
  destruct (exit_spec None m Hok)
    as (m' & out & us & Hexit & _ & _ & Hinv & Hw & Hout).
  eexists m', _, _. split; [exact Hexit|]. split; [exact Hinv|].
  intros Hret. destruct out as [ei'|e].
  - destruct Hout as (Hus & _ & ->). rewrite played_unflagged in Hus by done.
    subst us. cbn [raised_by_exit].
    apply first_raised_all_returned in Hret as Hfirst. rewrite Hfirst.
    split; [done|]. split; [by apply trace_of_all_returned | done].
  - destruct Hout as (_ & pre & u & post & tr0 & _ & _ & _ & Htr & _).
    rewrite Htr in Hret. apply Forall_app in Hret as [_ Hlast].
    by apply Forall_cons in Hlast as [? _].
Qed.

(** ** Counting invocations *)

Lemma times_invoked_trace l us : ∀ w,
  times_invoked l (trace_of us w) = length (filter (λ v, autoCommit v = l) us).
Proof.
  unfold times_invoked. induction us as [|u us IH]; intros w; [done|].
  cbn [trace_of]. rewrite !filter_cons. cbn [fst].
  case_decide; cbn [length]; by rewrite IH.
Qed.

Lemma filter_none {A} (P : A → Prop) `{!∀ x, Decision (P x)} (l : list A) :
  (∀ x, x ∈ l → ¬ P x) → filter P l = [].
Proof.
  induction l as [|x l IH]; intros Hl; [done|].
  rewrite filter_cons_False by (apply Hl; by left).
  apply IH. intros y Hy. apply Hl. by right.
Qed.

Lemma flag_list_inj q u v :
  NoDup (autoCommit <$> q) → u ∈ q → v ∈ q →
  autoCommit u = autoCommit v → u = v.
Proof.
  induction q as [|x q IH]; intros Hnd Hu Hv Heq; [by apply elem_of_nil in Hu|].
  rewrite fmap_cons in Hnd. apply NoDup_cons in Hnd as [Hx Hnd].
  apply elem_of_cons in Hu as [->|Hu]; apply elem_of_cons in Hv as [->|Hv].
  - done.
  - destruct Hx. rewrite Heq. by apply list_elem_of_fmap_2.
  - destruct Hx. rewrite <- Heq. by apply list_elem_of_fmap_2.
  - by apply IH.
Qed.

Lemma filter_flag_list q u :
  NoDup (autoCommit <$> q) → u ∈ q →
  filter (λ v, autoCommit v = autoCommit u) q = [u].
Proof.
  induction q as [|x q IH]; intros Hnd Hu; [by apply elem_of_nil in Hu|].
  rewrite fmap_cons in Hnd. apply NoDup_cons in Hnd as [Hx Hnd].
  apply elem_of_cons in Hu as [->|Hu].
  - rewrite filter_cons_True by done. f_equal. apply filter_none.
    intros v Hv Heq. destruct Hx. rewrite <- Heq. by apply list_elem_of_fmap_2.
  - rewrite filter_cons_False; [by apply IH|].
    intros Heq. destruct Hx. rewrite Heq. by apply list_elem_of_fmap_2.
Qed.

Lemma played_sublist exc h q : played exc h q `sublist_of` q.
Proof. apply sublist_filter. Qed.

Lemma sublist_flag_lists us q :
  us `sublist_of` q → NoDup (autoCommit <$> q) → NoDup (autoCommit <$> us).
Proof. intros Hs Hnd. eapply sublist_NoDup; [done|]. by apply fmap_sublist. Qed.

(** In a full playback a tuple of the deque is invoked once, or not at all
    when it is skipped. *)
Lemma times_invoked_played exc h q u w :
  NoDup (autoCommit <$> q) → u ∈ q →
  times_invoked (autoCommit u) (trace_of (played exc h q) w)
  = if skipped exc h u then 0 else 1.
Proof.
  intros Hnd Hu. rewrite times_invoked_trace.
  destruct (skipped exc h u) eqn:Hs.
  - rewrite filter_none; [done|]. intros v Hv Heq.
    apply list_elem_of_filter in Hv as [Hv Hvq].
    assert (v = u) as -> by eauto using flag_list_inj. congruence.
  - rewrite filter_flag_list; [done| |].
    + eapply sublist_flag_lists; [apply played_sublist|done].
    + by apply list_elem_of_filter.
Qed.

(** Every exit ends, changes neither the context nor the flag lists, and
    invokes, in the order of the deque, tuples that are not skipped. *)
Lemma exit_trace exc m :
  heap_ok m →
  ∃ m' r us,
    __exit__ exc m = Some (m', r) ∧
    heap m' = heap m ∧ rollback m' = rollback m ∧
    invoked m' = invoked m ++ trace_of us (world m) ∧
    world m' = run_calls (bound_call <$> us) (world m) ∧
    us `sublist_of` played exc (heap m) (_finally (rollback m)).
Proof.
  intros Hok.
  destruct (exit_spec exc m Hok) as (m' & out & us & Hexit & Hh & Hr & Hinv & Hw & Hout).
  eexists m', _, us. repeat (split; [done|]).
  destruct out as [ei'|e].
  - by destruct Hout as (-> & _).
  - destruct Hout as (_ & pre & u & post & tr0 & -> & -> & Hs & _).
    unfold played. rewrite filter_app, filter_cons_True by done.
    apply sublist_app; [done|]. apply sublist_skip, sublist_nil_l.
Qed.

Lemma times_invoked_skipped exc h q us u w :
  NoDup (autoCommit <$> q) → u ∈ q → skipped exc h u = true →
  us `sublist_of` played exc h q →
  times_invoked (autoCommit u) (trace_of us w) = 0.
Proof.
  intros Hnd Hu Hs Hsub. rewrite times_invoked_trace, filter_none; [done|].
  intros v Hv Heq. eapply elem_of_sublist in Hv; [|done].
  apply list_elem_of_filter in Hv as [Hv Hvq].
  assert (v = u) as -> by eauto using flag_list_inj. congruence.
Qed.

(** The order of invocation is that of the deque. *)
Lemma sublist_order us (A B : list Undo) x y :
  us `sublist_of` A ++ B → NoDup (A ++ B) →
  x ∈ A → y ∈ B → x ∈ us → y ∈ us →
  ∃ i j, i < j ∧ us !! i = Some x ∧ us !! j = Some y.
Proof.
  intros (l1 & l2 & -> & H1 & H2)%sublist_app_r (_ & Hdisj & _)%NoDup_app
    HxA HyB Hx Hy.
  assert (Hx1 : x ∈ l1).
  { apply elem_of_app in Hx as [Hx|Hx]; [done|].
    destruct (Hdisj x HxA). by eapply elem_of_sublist. }
  assert (Hy2 : y ∈ l2).
  { apply elem_of_app in Hy as [Hy|Hy]; [|done].
    destruct (Hdisj y); [by eapply elem_of_sublist | done]. }
  apply list_elem_of_lookup in Hx1 as [i Hi].
  apply list_elem_of_lookup in Hy2 as [j Hj].
  exists i, (length l1 + j). pose proof (lookup_lt_Some _ _ _ Hi).
  split; [lia|]. split.
  - by rewrite lookup_app_l.
  - rewrite lookup_app_r by lia. by replace (length l1 + j - length l1) with j by lia.
Qed.

Lemma runs_before_trace us w x y :
  (∃ i j, i < j ∧ us !! i = Some x ∧ us !! j = Some y) →
  runs_before x y (trace_of us w).
Proof.
  intros (i & j & Hij & Hi & Hj). exists i, j.
  rewrite <- !list_lookup_fmap, trace_of_fst. done.
Qed.

(** With instances of [Exception] only, the whole deque is played. *)
Lemma undo_exits_only_Exceptions exc m :
  heap_ok m →
  only_Exceptions (_finally (rollback m)) →
  ∃ m' r,
    __exit__ exc m = Some (m', r) ∧
    invoked m' = invoked m
      ++ trace_of (played exc (heap m) (_finally (rollback m))) (world m).
Proof.
  intros Hok Honly.
  destruct (exit_runs exc m Hok) as (m' & out & Hrun).
  destruct (for_finally_exhausts _ _ _ _ _ _ Honly Hrun) as [ei' ->].
  pose proof (exit_unfold _ _ _ _ Hrun) as Hexit.
  apply for_finally_spec in Hrun as (_ & _ & us & Hinv & _ & -> & _ & _).
  eauto.
Qed.

Lemma only_Exceptions_nil : only_Exceptions [].
Proof. intros u w e Hu. by apply elem_of_nil in Hu. Qed.

Lemma only_Exceptions_cons u q :
  (∀ w e, (call (undo u) (args u) (kwargs u) w).2 = Some e → isException e = true) →
  only_Exceptions q → only_Exceptions (u :: q).
Proof.
  intros Hu Hq v w e [->|Hv]%elem_of_cons; [apply Hu | by apply Hq].
Qed.

Lemma caught_not_escaped tr0 u e :
  isException e = false → ¬ caught (tr0 ++ [(u, Some e)]).
Proof.
  intros He [_ Hlast]%Forall_app. apply Forall_cons in Hlast as [Hlast _].
  specialize (Hlast e eq_refl). congruence.
Qed.



(** ** The claims *)

(** C1.  After any sequence of [push] calls on a new context, a clean scope
    exit ends; and if no call made during it raises, it has invoked exactly
    the registered calls, each once with the arguments it was registered
    with, in the reverse of the order of registration, and it returns
    without raising. *)
Theorem push_playback_reverse (cs : list (Func * Args * Kwargs)) m :
  ∃ m' r tr,
    __exit__ None (push_all cs (__init__ m)) = Some (m', r) ∧
    invoked m' = invoked m ++ tr ∧
    (all_returned tr →
       r = None ∧
       with_exit None (push_all cs (__init__ m)) = Some (m', None) ∧
       (λ ev, (bound_call ev.1, ev.2)) <$> tr = (λ c, (c, None)) <$> reverse cs ∧
       world m' = run_calls (reverse cs) (world m)).
Proof.
  set (rs := (λ c, mkRegistration true c.1.1 c.1.2 c.2) <$> cs).
  assert (Hcalls : registered_call <$> rs = cs).
  { unfold rs. rewrite <- list_fmap_compose. rewrite <- (list_fmap_id cs) at 2.
    apply list_fmap_ext. by intros i [[f a] k] _. }
  assert (Htop : filter (λ c, toTop c = true) rs = rs).
  { unfold rs. clear. induction cs as [|c cs IH]; [done|].
    rewrite fmap_cons, filter_cons_True by done. by rewrite IH. }
  assert (Hbot : filter (λ c, toTop c = false) rs = []).
  { unfold rs. clear. induction cs as [|c cs IH]; [done|].
    rewrite fmap_cons, filter_cons_False by done. by rewrite IH. }
  rewrite push_all_register_all. fold rs.
  set (m2 := register_all rs (__init__ m)).
  assert (Hok : heap_ok m2) by apply heap_ok_register_all, heap_ok_init.
  assert (Hun : unflagged m2) by (apply unflagged_register_all; constructor).
  destruct (register_all_frame rs (__init__ m)) as (Hw2 & Hi2 & _).
  destruct (register_all_finally rs (__init__ m))
    as (tops & bottoms & Hq & Htops & Hbottoms).
  fold m2 in Hq, Hw2, Hi2. cbn [__init__ rollback _finally app] in Hq.
  cbn [__init__ world invoked] in Hw2, Hi2.
  assert (Hq' : bound_call <$> _finally (rollback m2) = reverse cs).
  { rewrite Hq, fmap_app, Htops, Hbottoms, Htop, Hbot, Hcalls.
    by rewrite fmap_nil, app_nil_r. }
  destruct (quiet_playback m2 Hok Hun) as (m' & r & tr & Hexit & Hinv & Hquiet).
  exists m', r, tr. split; [done|]. split; [by rewrite Hinv, Hi2|].
  intros Hret. destruct (Hquiet Hret) as (-> & -> & Hw).
  split; [done|]. split; [by rewrite (with_exit_unfold _ _ _ _ Hexit)|].
  split.
  - rewrite <- Hq', <- !list_fmap_compose. done.
  - by rewrite Hw, Hq', Hw2.
Qed.

(** C5.  After any interleaving of [push] and [pushBottom] calls on a new
    context, a clean scope exit ends; and if no call made during it raises,
    it has invoked first the calls registered with [push], in the reverse of
    their order of registration, and then the calls registered with
    [pushBottom], in their order of registration, each once, and it returns
    without raising. *)
Theorem interleaved_playback_order (cs : list registering) m :
  ∃ m' r tr,
    __exit__ None (protected_block cs (__init__ m)) = Some (m', r) ∧
    invoked m' = invoked m ++ tr ∧
    (all_returned tr →
       r = None ∧
       with_exit None (protected_block cs (__init__ m)) = Some (m', None) ∧
       (λ ev, (bound_call ev.1, ev.2)) <$> tr
         = (λ c, (c, None)) <$> (reverse (pushed cs) ++ pushedBottom cs) ∧
       world m' = run_calls (reverse (pushed cs) ++ pushedBottom cs) (world m)).
Proof.
  set (m2 := protected_block cs (__init__ m)).
  assert (Hok : heap_ok m2) by apply heap_ok_protected_block, heap_ok_init.
  assert (Hun : unflagged m2) by (apply unflagged_protected_block; constructor).
  destruct (protected_block_frame cs (__init__ m)) as (Hw2 & Hi2).
  destruct (protected_block_finally cs (__init__ m))
    as (tops & bottoms & Hq & Htops & Hbottoms).
  fold m2 in Hq, Hw2, Hi2. cbn [__init__ rollback _finally app] in Hq.
  cbn [__init__ world invoked] in Hw2, Hi2.
  assert (Hq' : bound_call <$> _finally (rollback m2)
                = reverse (pushed cs) ++ pushedBottom cs).
  { by rewrite Hq, fmap_app, Htops, Hbottoms. }
  destruct (quiet_playback m2 Hok Hun) as (m' & r & tr & Hexit & Hinv & Hquiet).
  exists m', r, tr. split; [done|]. split; [by rewrite Hinv, Hi2|].
  intros Hret. destruct (Hquiet Hret) as (-> & -> & Hw).
  split; [done|]. split; [by rewrite (with_exit_unfold _ _ _ _ Hexit)|].
  split.
  - rewrite <- Hq', <- !list_fmap_compose. done.
  - by rewrite Hw, Hq', Hw2.
Qed.

(** C2, amended.  Scope exit ends, and when every exception raised by an
    undo call during it is an instance of [Exception], one exception at most
    leaves the [with] statement: the one of the protected block if it raised,
    whatever the undo calls raised; otherwise the first exception raised by an
    undo call, in the order of playback; otherwise none. *)
Theorem exit_precedence exc m :
  heap_ok m →
  ∃ m' r tr,
    __exit__ exc m = Some (m', r) ∧
    invoked m' = invoked m ++ tr ∧
    (caught tr →
       with_exit exc m
       = Some (m', match exc with Some e => Some e | None => first_raised tr end)).
Proof.
  intros Hok.
  destruct (exit_spec exc m Hok)
    as (m' & out & us & Hexit & _ & _ & Hinv & _ & Hout).
  eexists m', _, _. split; [exact Hexit|]. split; [exact Hinv|].
  intros Hcaught. rewrite (with_exit_unfold _ _ _ _ Hexit).
  destruct out as [ei'|e].
  - destruct Hout as (_ & _ & ->). cbn [raised_by_exit].
    destruct exc; [done|]. by destruct (first_raised _).
  - destruct Hout as (He & pre & u & post & tr0 & _ & _ & _ & Htr & _).
    rewrite Htr in Hcaught. by apply caught_not_escaped in Hcaught.
Qed.

(** C4, amended.  When every exception raised by a registered callable is an
    instance of [Exception], playback invokes every tuple of the deque that
    the auto-commit rule does not skip, in the order of the deque and exactly
    once, however many of the calls raise; a skipped tuple is not invoked. *)
Theorem undo_failures_do_not_stop_playback exc m :
  heap_ok m →
  only_Exceptions (_finally (rollback m)) →
  ∃ m' r tr,
    __exit__ exc m = Some (m', r) ∧
    invoked m' = invoked m ++ tr ∧
    tr = trace_of (played exc (heap m) (_finally (rollback m))) (world m) ∧
    ∀ u, u ∈ _finally (rollback m) →
      times_invoked (autoCommit u) tr = if skipped exc (heap m) u then 0 else 1.
Proof.
  intros Hok Honly.
  destruct (exit_runs exc m Hok) as (m' & out & Hrun).
  destruct (for_finally_exhausts _ _ _ _ _ _ Honly Hrun) as [ei' ->].
  pose proof (exit_unfold _ _ _ _ Hrun) as Hexit.
  apply for_finally_spec in Hrun as (_ & _ & us & Hinv & _ & -> & _ & _).
  eexists m', _, _. split; [exact Hexit|]. split; [exact Hinv|].
  split; [done|]. intros u Hu. apply times_invoked_played; [apply Hok|done].
Qed.

(** C10.  Scope exit always ends; and if one of the undo calls it made raised
    an exception that is not an instance of [Exception], that call is the
    last one made, no tuple placed after it in the deque is invoked, and the
    exception leaves [__exit__] and the [with] statement, whether or not the
    protected block raised. *)
Theorem non_Exception_aborts_playback exc m :
  heap_ok m →
  ∃ m' r tr,
    __exit__ exc m = Some (m', r) ∧
    invoked m' = invoked m ++ tr ∧
    ∀ u e, (u, Some e) ∈ tr → isException e = false →
      r = Some e ∧
      with_exit exc m = Some (m', Some e) ∧
      ∃ tr0 pre post,
        tr = tr0 ++ [(u, Some e)] ∧
        _finally (rollback m) = pre ++ u :: post ∧
        ∀ v, v ∈ post → times_invoked (autoCommit v) tr = 0.
Proof.
  intros Hok.
  destruct (exit_spec exc m Hok) as (m' & out & us & Hexit & _ & _ & Hinv & _ & Hout).
  eexists m', _, _. split; [exact Hexit|]. split; [exact Hinv|].
  intros u e Hin He. destruct out as [ei'|e'].
  { destruct Hout as (_ & Hc & _). unfold caught in Hc.
    rewrite Forall_forall in Hc. specialize (Hc _ Hin e eq_refl). congruence. }
  destruct Hout as (_ & pre & u' & post & tr0 & Hq & Hus & _ & Htr & Hc).
  assert ((u, Some e) = (u', Some e')) as Heq.
  { rewrite Htr in Hin. apply elem_of_app in Hin as [Hin|Hin].
    - unfold caught in Hc. rewrite Forall_forall in Hc.
      specialize (Hc _ Hin e eq_refl). congruence.
    - by apply list_elem_of_singleton in Hin. }
  injection Heq as <- <-. cbn [raised_by_exit]. split; [done|].
  split; [by rewrite (with_exit_unfold _ _ _ _ Hexit)|].
  exists tr0, pre, post. split; [done|]. split; [done|].
  intros v Hv. rewrite times_invoked_trace, filter_none; [done|].
  intros x Hx Heq. destruct Hok as [_ Hnd].
  rewrite Hq, (cons_middle u), app_assoc, fmap_app in Hnd.
  apply NoDup_app in Hnd as (_ & Hdisj & _).
  apply (Hdisj (autoCommit x)).
  - apply list_elem_of_fmap_2. rewrite Hus in Hx.
    apply elem_of_app in Hx as [Hx|Hx]; apply elem_of_app; [left|by right].
    by apply list_elem_of_filter in Hx as [_ Hx].
  - rewrite Heq. by apply list_elem_of_fmap_2.
Qed.

(** C7, amended.  Scope exit always ends and leaves the undo list as it was:
    the loop reads the deque and removes nothing from it. *)
Theorem exit_keeps_undo_list exc m :
  heap_ok m →
  ∃ m' r,
    __exit__ exc m = Some (m', r) ∧
    _finally (rollback m') = _finally (rollback m).
Proof.
  intros Hok.
  destruct (exit_trace exc m Hok) as (m' & r & us & Hexit & _ & Hr & _).
  exists m', r. by rewrite Hr.
Qed.

(** C8.  [commitAll] empties the undo list and changes nothing else: no flag
    list, not the other field of the context, not the world, and no call is
    made.  A scope exit that follows, clean or not, invokes nothing and
    raises nothing. *)
Theorem commitAll_discards m :
  _finally (rollback (commitAll m)) = [] ∧
  _lastUndo (rollback (commitAll m)) = _lastUndo (rollback m) ∧
  heap (commitAll m) = heap m ∧
  world (commitAll m) = world m ∧
  invoked (commitAll m) = invoked m ∧
  (∀ exc, __exit__ exc (commitAll m) = Some (commitAll m, None)) ∧
  with_exit None (commitAll m) = Some (commitAll m, None).
Proof.
  repeat (split; [done|]). split.
  - intros exc. unfold __exit__. cbn. by destruct exc.
  - done.
Qed.

(** C9.  [push] and [pushBottom] make no call and change neither the world nor
    the other field of the context; the deque gains the new tuple, at the top
    or at the bottom, and nothing else; the heap gains the flag list of the
    new tuple, at an identity not in use, and the flag of every tuple
    registered before reads as it did.  The tuple returned is the one stored:
    after [setAutoCommit] on it the loop reads its flag as set, and a clean
    exit does not invoke it. *)
Theorem push_only_registers (t : bool) func a k m :
  heap_ok m →
  let p := if t then push func a k m else pushBottom func a k m in
  world p.1 = world m ∧
  invoked p.1 = invoked m ∧
  _lastUndo (rollback p.1) = _lastUndo (rollback m) ∧
  _finally (rollback p.1)
    = (if t then p.2 :: _finally (rollback m) else _finally (rollback m) ++ [p.2]) ∧
  bound_call p.2 = (func, a, k) ∧
  heap m !! autoCommit p.2 = None ∧
  (∀ l, l ≠ autoCommit p.2 → heap p.1 !! l = heap m !! l) ∧
  (∀ v, v ∈ _finally (rollback m) →
     autoCommit_0 (heap p.1) v = autoCommit_0 (heap m) v) ∧
  autoCommit_0 (heap p.1) p.2 = Some false ∧
  ∃ m2,
    setAutoCommit p.2 p.1 = Some m2 ∧
    rollback m2 = rollback p.1 ∧
    autoCommit_0 (heap m2) p.2 = Some true ∧
    ∃ m' r tr,
      __exit__ None m2 = Some (m', r) ∧
      invoked m' = invoked m2 ++ tr ∧
      times_invoked (autoCommit p.2) tr = 0.
Proof.
  intros Hok p.
  assert (Hp : p = _push func t a k m) by (unfold p; by destruct t).
  clearbody p. subst p.
  pose proof (heap_ok_push func t a k m Hok) as Hok1.
  repeat (split; [done|]).
  split; [apply fresh_cell|].
  split; [intros l Hl; cbn; by rewrite lookup_insert_ne|].
  split.
  { intros v Hv. apply push_other_flags. destruct Hok as [Hcells _].
    rewrite Forall_forall in Hcells. by apply Hcells. }
  split; [apply push_own_flag|].
  destruct (setAutoCommit_total (_push func t a k m).2 (_push func t a k m).1)
    as [m2 Hset].
  { rewrite push_own_flag. by eexists. }
  set (p := _push func t a k m) in *.
  exists m2. split; [done|].
  pose proof (heap_ok_setAutoCommit _ _ _ Hok1 Hset) as Hok2.
  apply setAutoCommit_spec in Hset as (Hr & _ & _ & Hflags).
  split; [done|]. split; [by rewrite Hflags, decide_True|].
  destruct (exit_trace None m2 Hok2) as (m' & r & us & Hexit & _ & _ & Hinv & _ & Hsub).
  eexists m', r, _. split; [done|]. split; [done|].
  eapply times_invoked_skipped; [apply Hok2| | |exact Hsub].
  - rewrite Hr. unfold p. rewrite push_finally. fold p.
    destruct t; [by left | apply elem_of_app; right; by left].
  - cbn [skipped]. by rewrite Hflags, decide_True.
Qed.


(** C6, amended.  A tuple registered with [pushBottom] is placed after every
    tuple registered at the time of the call; registrations made afterwards
    go before those if made with [push] and after the tuple if made with
    [pushBottom].  At scope exit, whenever the tuple and another one are both
    invoked: a tuple registered before the call, or registered later with
    [push], is invoked before it, and a tuple registered later with
    [pushBottom] is invoked after it. *)
Theorem pushBottom_runs_after_registered func a k (cs : list registration) exc m :
  heap_ok m →
  let p := pushBottom func a k m in
  let m2 := register_all cs p.1 in
  ∃ tops bottoms m' r tr,
    _finally (rollback m2) = tops ++ _finally (rollback m) ++ p.2 :: bottoms ∧
    bound_call <$> tops
      = reverse (registered_call <$> filter (λ c, toTop c = true) cs) ∧
    bound_call <$> bottoms
      = registered_call <$> filter (λ c, toTop c = false) cs ∧
    __exit__ exc m2 = Some (m', r) ∧
    invoked m' = invoked m2 ++ tr ∧
    (∀ v, v ∈ tops ++ _finally (rollback m) →
       v ∈ tr.*1 → p.2 ∈ tr.*1 → runs_before v p.2 tr) ∧
    (∀ v, v ∈ bottoms →
       v ∈ tr.*1 → p.2 ∈ tr.*1 → runs_before p.2 v tr).
Proof.
  intros Hok p m2.
  assert (Hok2 : heap_ok m2) by apply heap_ok_register_all, heap_ok_push, Hok.
  destruct (register_all_finally cs p.1) as (tops & bottoms & Hq & Htops & Hbottoms).
  fold m2 in Hq.
  assert (Hp : _finally (rollback p.1) = _finally (rollback m) ++ [p.2]) by done.
  rewrite Hp, <- app_assoc in Hq. cbn [app] in Hq.
  destruct (exit_trace exc m2 Hok2) as (m' & r & us & Hexit & _ & _ & Hinv & _ & Hsub).
  assert (Hsubq : us `sublist_of` _finally (rollback m2)).
  { etrans; [exact Hsub | apply played_sublist]. }
  assert (Hnd : NoDup (_finally (rollback m2))).
  { eapply NoDup_fmap_1, Hok2. }
  assert (Hq1 : _finally (rollback m2)
                = (tops ++ _finally (rollback m)) ++ p.2 :: bottoms).
  { by rewrite Hq, <- app_assoc. }
  assert (Hq2 : _finally (rollback m2)
                = (tops ++ _finally (rollback m) ++ [p.2]) ++ bottoms).
  { by rewrite Hq, <- !app_assoc. }
  exists tops, bottoms, m', r, (trace_of us (world m2)).
  repeat (split; [done|]). rewrite trace_of_fst.
  split; intros v Hv Hvus Hpus; apply runs_before_trace.
  - apply (sublist_order us (tops ++ _finally (rollback m)) (p.2 :: bottoms));
      try done; try (by rewrite <- Hq1). by left.
  - apply (sublist_order us (tops ++ _finally (rollback m) ++ [p.2]) bottoms);
      try done; try (by rewrite <- Hq2).
    rewrite app_assoc. apply elem_of_app. right. by left.
Qed.

End Properties.

(** * Further properties of the code *)

Section Usage.
Context `{RT : Runtime}.
Implicit Types (m : machine) (u v : Undo) (q items us : list Undo).
Implicit Types (exc ei : option Exc) (tr : list (Undo * option Exc)).

(** ** Helpers *)

Lemma exit_frame exc m m' r :
  __exit__ exc m = Some (m', r) →
  heap m' = heap m ∧ rollback m' = rollback m.
Proof.
  unfold __exit__. intros Hexit.
  destruct (for_finally exc (_finally (rollback m)) None m) as [[m1 out]|] eqn:Hrun;
    [|done].
  apply for_finally_spec in Hrun as (Hh & Hr & _).
  cbn [mbind option_bind fst snd] in Hexit.
  assert (m' = m1) as ->.
  { destruct out as [[e|]|e]; destruct exc; by injection Hexit as -> _. }
  done.
Qed.

Lemma heap_ok_exit exc m m' r :
  heap_ok m → __exit__ exc m = Some (m', r) → heap_ok m'.
Proof.
  intros Hok (Hh & Hr)%exit_frame. unfold heap_ok. by rewrite Hh, Hr.
Qed.

Lemma heap_ok_commitAll m : heap_ok (commitAll m).
Proof. split; cbn; constructor. Qed.

Lemma heap_ok_step o m m' : heap_ok m → step m o = Some m' → heap_ok m'.
Proof.
  intros Hok Hstep. destruct o as [c|u| |exc]; cbn [step] in Hstep.
  - injection Hstep as <-. by apply heap_ok_push.
  - by eapply heap_ok_setAutoCommit.
  - injection Hstep as <-. apply heap_ok_commitAll.
  - destruct (__exit__ exc m) as [[m1 r]|] eqn:Hexit; [|done].
    injection Hstep as <-. by eapply heap_ok_exit.
Qed.

Lemma played_failing e0 h q : played (Some e0) h q = q.
Proof.
  unfold played. induction q as [|u q IH]; [done|].
  by rewrite filter_cons_True, IH.
Qed.

Lemma for_finally_failing_total e0 items : ∀ ei m,
  is_Some (for_finally (Some e0) items ei m).
Proof.
  induction items as [|u items IH]; intros ei m; [by eexists|].
  cbn [for_finally mbind option_bind]. unfold invoke.
  destruct (call _ _ _ _) as [w [e|]]; [|by apply IH].
  destruct (isException e); [by apply IH | by eexists].
Qed.

Lemma first_raised_elem tr e :
  first_raised tr = Some e → ∃ u, (u, Some e) ∈ tr.
Proof.
  induction tr as [|[u [e'|]] tr IH]; cbn [first_raised]; intros H; [done| |].
  - injection H as ->. exists u. by left.
  - destruct (IH H) as [v Hv]. exists v. by right.
Qed.

Lemma first_raised_None tr :
  first_raised tr = None ↔ Forall (λ ev, ev.2 = None) tr.
Proof.
  induction tr as [|[u [e'|]] tr IH]; cbn [first_raised].
  - split; [constructor|done].
  - split; [done|]. by intros [? _]%Forall_cons.
  - rewrite IH. split; [by constructor|]. by intros [_ ?]%Forall_cons.
Qed.

Lemma trace_of_elem us : ∀ w u r, (u, r) ∈ trace_of us w → u ∈ us.
Proof.
  intros w u r Hin. rewrite <- (trace_of_fst us w).
  apply list_elem_of_fmap. by exists (u, r).
Qed.

Lemma filter_flag_list_le q l :
  NoDup (autoCommit <$> q) →
  length (filter (λ v, autoCommit v = l) q) ≤ 1.
Proof.
  induction q as [|x q IH]; intros Hnd; [cbn; lia|].
  rewrite fmap_cons in Hnd. apply NoDup_cons in Hnd as [Hx Hnd].
  rewrite filter_cons. case_decide as Hl; [|by apply IH].
  rewrite filter_none; [cbn; lia|].
  intros v Hv Heq. destruct Hx. rewrite Hl, <- Heq. by apply list_elem_of_fmap_2.
Qed.

Lemma heap_ok_run os : ∀ m m',
  heap_ok m → run_ops os m = Some m' → heap_ok m'.
Proof.
  induction os as [|o os IH]; intros m m' Hok Hrun; cbn [run_ops] in Hrun.
  - by injection Hrun as <-.
  - destruct (step m o) as [m1|] eqn:Hstep; [|done].
    eapply IH; [|exact Hrun]. by eapply heap_ok_step.
Qed.

Lemma setAutoCommit_unfold u m cell :
  heap m !! autoCommit u = Some cell → cell ≠ [] →
  setAutoCommit u m
  = Some (set_heap (<[autoCommit u := <[0 := true]> cell]> (heap m)) m).
Proof.
  intros Hcell Hne. unfold setAutoCommit. rewrite Hcell.
  cbn [mbind option_bind]. by destruct cell.
Qed.

Lemma setAutoCommit_inv u m m1 :
  setAutoCommit u m = Some m1 →
  ∃ cell, heap m !! autoCommit u = Some cell ∧ cell ≠ [] ∧
    m1 = set_heap (<[autoCommit u := <[0 := true]> cell]> (heap m)) m.
Proof.
  unfold setAutoCommit. intros Hset.
  destruct (heap m !! autoCommit u) as [[|b cell]|] eqn:Hcell; try done.
  injection Hset as <-. by exists (b :: cell).
Qed.

(** ** Invariants of a use of the context *)

(** X1.  Whatever is done with a new context (registrations, [setAutoCommit]
    on any tuple, [commitAll], calls of [__exit__]), every tuple of the deque
    refers to a flag list of its own that has an element 0. *)
Theorem new_context_keeps_flag_lists os m m' :
  run_ops os (__init__ m) = Some m' → heap_ok m'.
Proof. apply heap_ok_run, heap_ok_init. Qed.

(** X2.  No step clears a flag: a flag that reads as set keeps reading as
    set after any sequence of registrations, [setAutoCommit] calls,
    [commitAll] calls and exits. *)
Theorem flag_stays_set os : ∀ m m' v,
  run_ops os m = Some m' →
  autoCommit_0 (heap m) v = Some true →
  autoCommit_0 (heap m') v = Some true.
Proof.
  induction os as [|o os IH]; intros m m' v Hrun Hv; cbn [run_ops] in Hrun.
  - by injection Hrun as <-.
  - destruct (step m o) as [m1|] eqn:Hstep; [|done].
    eapply IH; [exact Hrun|]. clear Hrun IH.
    destruct o as [c|u| |exc]; cbn [step] in Hstep.
    + injection Hstep as <-. unfold register.
      rewrite push_other_flags; [done|]. rewrite Hv. by eexists.
    + apply setAutoCommit_spec in Hstep as (_ & _ & _ & Hflags).
      rewrite Hflags. by case_decide.
    + by injection Hstep as <-.
    + destruct (__exit__ exc m) as [[m2 r]|] eqn:Hexit; [|done].
      injection Hstep as <-. apply exit_frame in Hexit as [Hh _].
      cbn [fst]. by rewrite Hh.
Qed.

(** X3.  Only [__exit__] calls the registered callables: a sequence of
    registrations, [setAutoCommit] calls and [commitAll] calls makes no call
    and leaves the world as it is. *)
Theorem only_exit_invokes os : ∀ m m',
  Forall (λ o, is_exit o = false) os →
  run_ops os m = Some m' →
  world m' = world m ∧ invoked m' = invoked m.
Proof.
  induction os as [|o os IH]; intros m m' Hos Hrun; cbn [run_ops] in Hrun.
  - by injection Hrun as <-.
  - apply Forall_cons in Hos as [Ho Hos].
    destruct (step m o) as [m1|] eqn:Hstep; [|done].
    destruct (IH m1 m' Hos Hrun) as [-> ->]. clear Hrun IH.
    destruct o as [c|u| |exc]; cbn [step] in Hstep; [| | |done].
    + by injection Hstep as <-.
    + by apply setAutoCommit_spec in Hstep as (_ & -> & -> & _).
    + by injection Hstep as <-.
Qed.

(** X4.  [setAutoCommit] a second time on the same tuple changes nothing, and
    two [setAutoCommit] calls on two tuples give the same machine in either
    order. *)
Theorem setAutoCommit_idempotent_commutes u v m :
  (∀ m1, setAutoCommit u m = Some m1 → setAutoCommit u m1 = Some m1) ∧
  setAutoCommit u m ≫= setAutoCommit v = setAutoCommit v m ≫= setAutoCommit u.
Proof.
  split.
  - intros m1 (cell & Hcell & Hne & ->)%setAutoCommit_inv.
    rewrite (setAutoCommit_unfold u _ (<[0 := true]> cell)).
    + cbn [heap set_heap rollback world invoked]. unfold set_heap. cbn.
      by rewrite insert_insert_eq, list_insert_insert_eq.
    + cbn [heap set_heap]. by rewrite lookup_insert_eq.
    + by destruct cell.
  - destruct (decide (autoCommit u = autoCommit v)) as [Heq|Hne].
    { unfold setAutoCommit. rewrite Heq. done. }
    unfold setAutoCommit.
    destruct (heap m !! autoCommit u) as [[|bu cu]|] eqn:Hu;
      destruct (heap m !! autoCommit v) as [[|bv cv]|] eqn:Hv;
      cbn [mbind option_bind heap set_heap];
      rewrite ?lookup_insert_ne by done; rewrite ?Hu, ?Hv;
      cbn [mbind option_bind]; try done.
    unfold set_heap. cbn. f_equal. f_equal. by apply insert_insert_ne.
Qed.

(** ** Scope exit *)

Lemma failing_exit_runs e0 m :
  ∃ m' out, for_finally (Some e0) (_finally (rollback m)) None m = Some (m', out).
Proof.
  destruct (for_finally_failing_total e0 (_finally (rollback m)) None m)
    as [[m' out] H].
  eauto.
Qed.

(** X5.  When the protected block raised, [__exit__] ends whatever the flag
    lists are (the flags are not read), and the tuples it invokes are an
    initial segment of the deque, none being skipped: the whole deque when
    [__exit__] returns. *)
Theorem failing_exit_plays_prefix e0 m :
  ∃ m' r us,
    __exit__ (Some e0) m = Some (m', r) ∧
    invoked m' = invoked m ++ trace_of us (world m) ∧
    world m' = run_calls (bound_call <$> us) (world m) ∧
    us `prefix_of` _finally (rollback m) ∧
    (r = None → us = _finally (rollback m)).
Proof.
  destruct (failing_exit_runs e0 m) as (m' & out & Hrun).
  pose proof (exit_unfold _ _ _ _ Hrun) as Hexit.
  apply for_finally_spec in Hrun as (_ & _ & us & Hinv & Hw & Hout).
  exists m', (raised_by_exit (Some e0) out), us.
  repeat (split; [done|]). destruct out as [ei'|e].
  - destruct Hout as (-> & _). rewrite played_failing. done.
  - destruct Hout as (_ & pre & u & post & tr0 & -> & -> & _).
    rewrite played_failing. split; [|done].
    exists post. by rewrite <- app_assoc.
Qed.

(** X6.  An exception of the protected block is never swallowed: some
    exception always leaves the [with] statement, and it is the one of the
    block unless an undo call raised one that is not an instance of
    [Exception]. *)
Theorem block_exception_never_swallowed e0 m :
  ∃ m' e,
    with_exit (Some e0) m = Some (m', Some e) ∧
    (e = e0 ∨ isException e = false).
Proof.
  destruct (failing_exit_runs e0 m) as (m' & out & Hrun).
  pose proof (exit_unfold _ _ _ _ Hrun) as Hexit.
  apply with_exit_unfold in Hexit.
  apply for_finally_spec in Hrun as (_ & _ & us & _ & _ & Hout).
  destruct out as [ei'|e]; cbn [raised_by_exit] in Hexit.
  - exists m', e0. split; [|by left]. rewrite Hexit. by destruct ei'.
  - exists m', e. split; [done|]. right. apply Hout.
Qed.

(** X7.  [__exit__] raises nothing of its own: an exception that leaves it
    was raised, during this exit, by the call of a tuple of the deque. *)
Theorem exit_raises_what_an_undo_raised exc m :
  heap_ok m →
  ∃ m' r tr,
    __exit__ exc m = Some (m', r) ∧
    invoked m' = invoked m ++ tr ∧
    ∀ e, r = Some e → ∃ u, u ∈ _finally (rollback m) ∧ (u, Some e) ∈ tr.
Proof.
  intros Hok.
  destruct (exit_spec exc m Hok) as (m' & out & us & Hexit & _ & _ & Hinv & _ & Hout).
  eexists m', _, _. split; [exact Hexit|]. split; [exact Hinv|].
  intros e Hr. destruct out as [ei'|e'].
  - destruct Hout as (Hus & _ & ->). cbn [raised_by_exit] in Hr.
    assert (first_raised (trace_of us (world m)) = Some e) as Hfirst.
    { destruct exc; [done|]. by destruct (first_raised _). }
    apply first_raised_elem in Hfirst as [u Hu]. exists u. split; [|done].
    apply trace_of_elem in Hu. rewrite Hus in Hu.
    by apply list_elem_of_filter in Hu as [_ Hu].
  - destruct Hout as (_ & pre & u & post & tr0 & -> & _ & _ & -> & _).
    cbn [raised_by_exit] in Hr. injection Hr as <-. exists u. split.
    + apply elem_of_app. right. by left.
    + apply elem_of_app. right. by left.
Qed.

(** X8.  When the protected block did not raise, [__exit__] returns without
    raising exactly when none of the undo calls it made raised. *)
Theorem clean_exit_iff_no_undo_raised m :
  heap_ok m →
  ∃ m' r tr,
    __exit__ None m = Some (m', r) ∧
    invoked m' = invoked m ++ tr ∧
    (r = None ↔ Forall (λ ev, ev.2 = None) tr).
Proof.
  intros Hok.
  destruct (exit_spec None m Hok) as (m' & out & us & Hexit & _ & _ & Hinv & _ & Hout).
  eexists m', _, _. split; [exact Hexit|]. split; [exact Hinv|].
  destruct out as [ei'|e]; cbn [raised_by_exit].
  - destruct Hout as (_ & _ & ->). rewrite <- first_raised_None.
    by destruct (first_raised _).
  - destruct Hout as (_ & pre & u & post & tr0 & _ & _ & _ & -> & _).
    split; [done|]. intros [_ Hlast]%Forall_app.
    by apply Forall_cons in Hlast as [? _].
Qed.

(** X9.  [__exit__] can be called again: the deque being kept, a second exit
    plays it once more.  With instances of [Exception] only, each of the two
    exits invokes every tuple it does not skip, the second one from the world
    left by the first. *)
Theorem second_exit_replays exc exc' m :
  heap_ok m →
  only_Exceptions (_finally (rollback m)) →
  ∃ m1 r1 m2 r2,
    __exit__ exc m = Some (m1, r1) ∧
    __exit__ exc' m1 = Some (m2, r2) ∧
    invoked m2
      = invoked m
        ++ trace_of (played exc (heap m) (_finally (rollback m))) (world m)
        ++ trace_of (played exc' (heap m) (_finally (rollback m))) (world m1).
Proof.
  intros Hok Honly.
  destruct (undo_exits_only_Exceptions exc m Hok Honly) as (m1 & r1 & Hexit1 & Hinv1).
  pose proof (exit_frame _ _ _ _ Hexit1) as [Hh Hr].
  pose proof (heap_ok_exit _ _ _ _ Hok Hexit1) as Hok1.
  destruct (undo_exits_only_Exceptions exc' m1 Hok1) as (m2 & r2 & Hexit2 & Hinv2).
  { by rewrite Hr. }
  exists m1, r1, m2, r2. split; [done|]. split; [done|].
  by rewrite Hinv2, Hinv1, Hh, Hr, <- app_assoc.
Qed.

Lemma for_finally_all_skipped items : ∀ ei m,
  Forall (λ u, autoCommit_0 (heap m) u = Some true) items →
  for_finally None items ei m = Some (m, Exhausted ei).
Proof.
  induction items as [|u items IH]; intros ei m Hall; [done|].
  apply Forall_cons in Hall as [Hu Hall]. cbn [for_finally].
  rewrite Hu. cbn [mbind option_bind]. by apply IH.
Qed.

(** X10.  When the flag of every tuple of the deque is set, a clean exit does
    nothing: no call is made, nothing is raised and the machine is left as it
    was. *)
Theorem all_flagged_clean_exit_noop m :
  Forall (λ u, autoCommit_0 (heap m) u = Some true) (_finally (rollback m)) →
  __exit__ None m = Some (m, None) ∧ with_exit None m = Some (m, None).
Proof.
  intros Hall.
  pose proof (for_finally_all_skipped _ None m Hall) as Hrun.
  apply exit_unfold in Hrun. cbn [raised_by_exit] in Hrun.
  split; [done|]. by rewrite (with_exit_unfold _ _ _ _ Hrun).
Qed.

(** X11.  An exit invokes tuples of the deque only, in the order of the
    deque, and none of them more than once. *)
Theorem exit_invokes_registered_at_most_once exc m :
  heap_ok m →
  ∃ m' r us,
    __exit__ exc m = Some (m', r) ∧
    invoked m' = invoked m ++ trace_of us (world m) ∧
    us `sublist_of` _finally (rollback m) ∧
    ∀ l, times_invoked l (trace_of us (world m)) ≤ 1.
Proof.
  intros Hok.
  destruct (exit_trace exc m Hok) as (m' & r & us & Hexit & _ & _ & Hinv & _ & Hsub).
  assert (Hsubq : us `sublist_of` _finally (rollback m)).
  { etrans; [exact Hsub | apply played_sublist]. }
  exists m', r, us. repeat (split; [done|]).
  intros l. rewrite times_invoked_trace. apply filter_flag_list_le.
  eapply sublist_flag_lists; [exact Hsubq | apply Hok].
Qed.

(** ** Registration *)

(** X12.  [commitAll] does not close the context: registrations made after
    it are played at exit as in a new context, and nothing registered before
    it is.  A clean exit after [push] and [pushBottom] calls that follow a
    [commitAll] invokes calls registered by them only, in the order of the
    calls registered with [push] reversed followed by those registered with
    [pushBottom]; and it has invoked all of them and returns if no call made
    during it raises. *)
Theorem registrations_after_commitAll (cs : list registering) m :
  ∃ m' r tr,
    __exit__ None (protected_block cs (commitAll m)) = Some (m', r) ∧
    invoked m' = invoked m ++ tr ∧
    bound_call <$> tr.*1 `sublist_of` reverse (pushed cs) ++ pushedBottom cs ∧
    (all_returned tr →
       r = None ∧
       (λ ev, (bound_call ev.1, ev.2)) <$> tr
         = (λ c, (c, None)) <$> (reverse (pushed cs) ++ pushedBottom cs)).
Proof.
  set (m2 := protected_block cs (commitAll m)).
  assert (Hok : heap_ok m2) by apply heap_ok_protected_block, heap_ok_commitAll.
  assert (Hun : unflagged m2) by (apply unflagged_protected_block; constructor).
  destruct (protected_block_frame cs (commitAll m)) as (_ & Hi2).
  destruct (protected_block_finally cs (commitAll m))
    as (tops & bottoms & Hq & Htops & Hbottoms).
  fold m2 in Hq, Hi2. cbn [commitAll set_finally rollback _finally app] in Hq.
  cbn [commitAll set_finally invoked] in Hi2.
  assert (Hq' : bound_call <$> _finally (rollback m2)
                = reverse (pushed cs) ++ pushedBottom cs).
  { by rewrite Hq, fmap_app, Htops, Hbottoms. }
  destruct (exit_spec None m2 Hok)
    as (m' & out & us & Hexit & _ & _ & Hinv & _ & Hout).
  assert (Hsub : us `sublist_of` _finally (rollback m2)).
  { destruct out as [ei'|e].
    - destruct Hout as (-> & _). apply played_sublist.
    - destruct Hout as (_ & pre & u & post & tr0 & -> & -> & _).
      apply sublist_app; [apply played_sublist|].
      apply sublist_skip, sublist_nil_l. }
  eexists m', _, _. split; [exact Hexit|]. split; [by rewrite Hinv, Hi2|].
  split.
  { rewrite trace_of_fst, <- Hq'. by apply fmap_sublist. }
  intros Hret. destruct out as [ei'|e].
  - destruct Hout as (Hus & _ & ->). rewrite played_unflagged in Hus by done.
    subst us. cbn [raised_by_exit].
    apply first_raised_all_returned in Hret as Hfirst. rewrite Hfirst.
    split; [done|]. rewrite (trace_of_all_returned _ _ Hret).
    rewrite <- Hq', <- !list_fmap_compose. done.
  - destruct Hout as (_ & pre & u & post & tr0 & _ & _ & _ & Htr & _).
    rewrite Htr in Hret. apply Forall_app in Hret as [_ Hlast].
    by apply Forall_cons in Hlast as [? _].
Qed.

(** X13.  Each registration gets a flag list of its own, also when the same
    callable is registered twice with the same arguments: [setAutoCommit] on
    the tuple returned by one registration sets its flag and leaves the flag
    of the tuple returned by the next one unset. *)
Theorem registrations_have_own_flags func t a k func' t' a' k' m :
  let p1 := _push func t a k m in
  let p2 := _push func' t' a' k' p1.1 in
  autoCommit p1.2 ≠ autoCommit p2.2 ∧
  ∃ m3,
    setAutoCommit p1.2 p2.1 = Some m3 ∧
    autoCommit_0 (heap m3) p1.2 = Some true ∧
    autoCommit_0 (heap m3) p2.2 = Some false.
Proof.
  intros p1 p2.
  assert (Hne : autoCommit p1.2 ≠ autoCommit p2.2).
  { intros Heq. cbn in Heq.
    pose proof (is_fresh (dom (<[fresh (dom (heap m)) := [false]]> (heap m)))) as Hf.
    rewrite <- Heq in Hf. apply Hf. apply elem_of_dom.
    rewrite lookup_insert_eq. by eexists. }
  split; [done|].
  assert (H1 : autoCommit_0 (heap p2.1) p1.2 = Some false).
  { unfold p2. rewrite push_other_flags; unfold p1; rewrite push_own_flag;
      [done | by eexists]. }
  destruct (setAutoCommit_total p1.2 p2.1) as [m3 Hset].
  { rewrite H1. by eexists. }
  exists m3. split; [done|].
  apply setAutoCommit_spec in Hset as (_ & _ & _ & Hflags).
  split.
  - by rewrite Hflags, decide_True.
  - rewrite Hflags, decide_False by done. apply push_own_flag.
Qed.

(** X14.  The tuple registered last with [push] is always the first one
    invoked when the protected block raised, in the world the block left,
    whatever the other tuples and the flags are. *)
Theorem last_pushed_runs_first_on_failure func a k e0 m :
  let p := push func a k m in
  ∃ m' r tr,
    __exit__ (Some e0) p.1 = Some (m', r) ∧
    invoked m' = invoked m ++ (p.2, (call func a k (world m)).2) :: tr.
Proof.
  intros p.
  destruct (failing_exit_runs e0 p.1) as (m' & out & Hrun).
  pose proof (exit_unfold _ _ _ _ Hrun) as Hexit.
  apply for_finally_spec in Hrun as (_ & _ & us & Hinv & _ & Hout).
  assert (∃ us', us = p.2 :: us') as [us' ->].
  { destruct out as [ei'|e].
    - destruct Hout as (-> & _). rewrite played_failing. by eexists.
    - destruct Hout as (_ & pre & u & post & tr0 & Hq & -> & _).
      rewrite played_failing.
      change (_finally (rollback p.1)) with (p.2 :: _finally (rollback m)) in Hq.
      destruct pre as [|x pre]; injection Hq as <- _; by eexists. }
  eexists m', _, _. split; [exact Hexit|]. exact Hinv.
Qed.

(** The loop reads the heap through the flags of the tuples it iterates
    over, and nothing else. *)
Lemma for_finally_flags items : ∀ exc ei m n m' out,
  rollback n = rollback m → world n = world m → invoked n = invoked m →
  (∀ u, u ∈ items → autoCommit_0 (heap n) u = autoCommit_0 (heap m) u) →
  for_finally exc items ei m = Some (m', out) →
  ∃ n',
    for_finally exc items ei n = Some (n', out) ∧
    rollback n' = rollback m' ∧ world n' = world m' ∧ invoked n' = invoked m'.
Proof.
  induction items as [|u items IH]; intros exc ei m n m' out Hr Hw Hi Hflags Hrun.
  - cbn in Hrun. injection Hrun as <- <-. exists n. done.
  - cbn [for_finally] in *.
    assert (Hrest : ∀ v, v ∈ items →
              autoCommit_0 (heap n) v = autoCommit_0 (heap m) v).
    { intros v Hv. apply Hflags. by right. }
    rewrite (Hflags u) by (by left).
    destruct (match exc with None => autoCommit_0 (heap m) u | Some _ => Some false end)
      as [skip|]; [|done].
    cbn [mbind option_bind] in *. destruct skip; [by eapply IH|].
    unfold invoke in *. rewrite Hw.
    destruct (call (undo u) (args u) (kwargs u) (world m)) as [w r].
    destruct r as [e|].
    + destruct (isException e).
      * eapply IH; [| | | |exact Hrun]; cbn; try done. by rewrite Hi.
      * injection Hrun as <- <-. eexists. split; [done|]. cbn.
        by rewrite Hr, Hi.
    + eapply IH; [| | | |exact Hrun]; cbn; try done. by rewrite Hi.
Qed.

(** X15.  [setAutoCommit] on a tuple that is not in the deque (one discarded
    by [commitAll], say) has no effect on an exit: the same calls are made,
    the world is left the same and the same exception, if any, is raised. *)
Theorem setAutoCommit_unregistered_no_effect exc u m m1 m' r :
  setAutoCommit u m = Some m1 →
  autoCommit u ∉ autoCommit <$> _finally (rollback m) →
  __exit__ exc m = Some (m', r) →
  ∃ m1',
    __exit__ exc m1 = Some (m1', r) ∧
    world m1' = world m' ∧ invoked m1' = invoked m'.
Proof.
  intros (Hr & Hw & Hi & Hflags)%setAutoCommit_spec Hu Hexit.
  unfold __exit__ in Hexit.
  destruct (for_finally exc (_finally (rollback m)) None m) as [[m2 out]|] eqn:Hrun;
    [|done].
  cbn [mbind option_bind fst snd] in Hexit.
  assert (m' = m2 ∧ r = raised_by_exit exc out) as [-> ->].
  { destruct out as [[e|]|e]; destruct exc; by injection Hexit as <- <-. }
  destruct (for_finally_flags (_finally (rollback m)) exc None m m1 m2 out Hr Hw Hi)
    as (m1' & Hrun1 & _ & Hw1 & Hi1).
  { intros v Hv. rewrite Hflags, decide_False; [done|].
    intros Heq. apply Hu. rewrite <- Heq. by apply list_elem_of_fmap_2. }
  { done. }
  exists m1'. rewrite <- Hr in Hrun1. by rewrite (exit_unfold _ _ _ _ Hrun1).
Qed.

End Usage.

(** * The scenarios *)

Section Scenarios.
Import Tests.
#[local] Existing Instance test_runtime.

(** ** The test file *)

Example test_rollback_r : outcome test_rollback = Some ([VInt 0; VInt 1], None).
Proof. reflexivity. Qed.

Example test_rollback_bottom_r :
  outcome test_rollback_bottom = Some ([VInt 0; VInt 1; VInt 2], None).
Proof. reflexivity. Qed.

Example test_raise_r :
  outcome test_raise = Some ([VInt 1; VInt 2], Some FirstError).
Proof. reflexivity. Qed.

Example test_raise_undo_r :
  outcome test_raise_undo = Some ([VInt 0; VInt 1], Some FirstError).
Proof. reflexivity. Qed.

Example test_raise_prefer_original_r :
  outcome test_raise_prefer_original = Some ([], Some FirstError).
Proof. reflexivity. Qed.

Example test_raise_prefer_first_undo_r :
  outcome test_raise_prefer_first_undo = Some ([], Some FirstError).
Proof. reflexivity. Qed.

Example test_autocommit_r :
  outcome test_autocommit = Some ([VInt 0; VInt 2], None).
Proof. reflexivity. Qed.

Example test_raise_no_commit_r :
  outcome test_raise_no_commit = Some ([VInt 0; VInt 1; VInt 2], Some FirstError).
Proof. reflexivity. Qed.

Example test_raise_undo_autocommit_r :
  outcome test_raise_undo_autocommit = Some ([VInt 0; VInt 2], Some FirstError).
Proof. reflexivity. Qed.

Example test_commitAll_r : outcome test_commitAll = Some ([], None).
Proof. reflexivity. Qed.

(** ** Where a claim, as stated, fails *)

(** C2, as stated, fails: the block raises [FirstError], an undo raises
    [KeyboardInterrupt], and it is [KeyboardInterrupt] that leaves the [with]
    statement; and with no exception of the block, the undo that raises
    [FirstError] is the first to raise, yet [KeyboardInterrupt], raised by a
    later one, is what leaves it. *)
Lemma interrupt_replaces_block_failure :
  snd <$> with_exit (Some FirstError) interrupt_2.1
    = Some (Some KeyboardInterrupt) ∧
  snd <$> with_exit (Some FirstError) interrupt_2.1 ≠ Some (Some FirstError) ∧
  (λ p, (first_raised (invoked p.1), p.2)) <$> with_exit None mixed_failures
    = Some (Some FirstError, Some KeyboardInterrupt).
Proof. split; [reflexivity|]. split; [by vm_compute | reflexivity]. Qed.


(** C4, as stated, fails: on a clean exit the appending undo is not skipped
    by the auto-commit rule, and it is not invoked, because the undo played
    before it raises [KeyboardInterrupt]. *)
Lemma interrupt_stops_playback :
  interrupt_1.2 ∈ _finally (rollback interrupt_2.1) ∧
  skipped None (heap interrupt_2.1) interrupt_1.2 = false ∧
  (λ p, (times_invoked (autoCommit interrupt_1.2) (invoked p.1), world p.1, p.2))
    <$> with_exit None interrupt_2.1
    = Some (0, [], Some KeyboardInterrupt).
Proof.
  split; [apply elem_of_cons; right; apply elem_of_cons; by left|].
  split; reflexivity.
Qed.

(** C6, as stated, fails: of two tuples registered with [pushBottom], the one
    registered second is invoked after the one registered first, not before
    it. *)
Lemma later_bottom_runs_last :
  let tr := [(bottom_1.2, None); (bottom_2.2, None)] in
  (λ p, (world p.1, invoked p.1, p.2)) <$> with_exit None bottom_2.1
    = Some ([VInt 1; VInt 2], tr, None) ∧
  runs_before bottom_1.2 bottom_2.2 tr ∧
  ¬ runs_before bottom_2.2 bottom_1.2 tr.
Proof.
  split; [reflexivity|]. split.
  - exists 0, 1. split; [lia|]. split; reflexivity.
  - intros (i & j & Hij & Hi & Hj).
    destruct i as [|[|i]]; [by vm_compute in Hi| |by vm_compute in Hi].
    destruct j as [|[|j]]; [lia|lia|by vm_compute in Hj].
Qed.

(** C7, as stated, fails: after the exit, clean or not, the tuple registered
    is still in the undo list. *)
Lemma undo_list_not_emptied :
  (λ p, _finally (rollback p.1)) <$> with_exit None one_push.1
    = Some [one_push.2] ∧
  (λ p, _finally (rollback p.1)) <$> with_exit (Some FirstError) one_push.1
    = Some [one_push.2] ∧
  (λ p, _finally (rollback p.1)) <$> with_exit None one_push.1 ≠ Some [].
Proof. split; [reflexivity|]. split; [reflexivity | by vm_compute]. Qed.

(** ** The statements at work *)

Ltac registered_heap_ok :=
  repeat first [apply heap_ok_init | apply heap_ok_push].

Ltac raises_only_Exceptions :=
  repeat first
    [ apply only_Exceptions_nil
    | apply only_Exceptions_cons;
      [ let H := fresh in intros ? ? H; vm_compute in H;
        first [discriminate H | injection H as <-; reflexivity] | ] ].

(** The two [push] calls of [test_rollback]: both undo calls return. *)
Lemma push_playback_reverse_two_pushes :
  (λ p, (snd <$> invoked p.1, world p.1, p.2))
    <$> __exit__ None (push_all two_pushes (__init__ setUp))
    = Some ([None; None], [VInt 0; VInt 1], None) ∧
  ∃ m' r tr,
    __exit__ None (push_all two_pushes (__init__ setUp)) = Some (m', r) ∧
    invoked m' = invoked setUp ++ tr ∧
    (all_returned tr →
       r = None ∧
       with_exit None (push_all two_pushes (__init__ setUp)) = Some (m', None) ∧
       (λ ev, (bound_call ev.1, ev.2)) <$> tr
         = (λ c, (c, None)) <$> reverse two_pushes ∧
       world m' = run_calls (reverse two_pushes) (world setUp)).
Proof.
  split; [reflexivity | exact (push_playback_reverse two_pushes setUp)].
Defined.

(** The registration calls of [test_rollback_bottom]: the three undo calls
    return, made with 0, 1 and 2 in this order. *)
Lemma interleaved_playback_order_rollback_bottom :
  (λ p, (snd <$> invoked p.1, world p.1, p.2))
    <$> __exit__ None (protected_block rollback_bottom_calls (__init__ setUp))
    = Some ([None; None; None], [VInt 0; VInt 1; VInt 2], None) ∧
  ∃ m' r tr,
    __exit__ None (protected_block rollback_bottom_calls (__init__ setUp))
      = Some (m', r) ∧
    invoked m' = invoked setUp ++ tr ∧
    (all_returned tr →
       r = None ∧
       with_exit None (protected_block rollback_bottom_calls (__init__ setUp))
         = Some (m', None) ∧
       (λ ev, (bound_call ev.1, ev.2)) <$> tr
         = [((_append, [VInt 0], []), None);
            ((_append, [VInt 1], []), None);
            ((_append, [VInt 2], []), None)] ∧
       world m' = [VInt 0; VInt 1; VInt 2]).
Proof.
  split; [reflexivity|].
  exact (interleaved_playback_order rollback_bottom_calls setUp).
Defined.

(** The block of [test_raise_prefer_first_undo]: both undo calls raise an
    instance of [Exception], and the first one played raises [FirstError]. *)
Lemma exit_precedence_first_undo :
  heap_ok raise_prefer_first_undo_block ∧
  (λ p, (snd <$> invoked p.1, p.2))
    <$> with_exit None raise_prefer_first_undo_block
    = Some ([Some FirstError; Some SecondError], Some FirstError) ∧
  ∃ m' r tr,
    __exit__ None raise_prefer_first_undo_block = Some (m', r) ∧
    invoked m' = invoked raise_prefer_first_undo_block ++ tr ∧
    (caught tr →
       with_exit None raise_prefer_first_undo_block
       = Some (m', first_raised tr)).
Proof.
  assert (H1 : heap_ok raise_prefer_first_undo_block) by registered_heap_ok.
  split; [exact H1|]. split; [reflexivity|].
  exact (exit_precedence None raise_prefer_first_undo_block H1).
Defined.

(** The block of [test_raise_undo]. *)
Lemma undo_failures_do_not_stop_raise_undo :
  heap_ok raise_undo_block ∧
  only_Exceptions (_finally (rollback raise_undo_block)) ∧
  ∃ m' r tr,
    __exit__ None raise_undo_block = Some (m', r) ∧
    invoked m' = invoked raise_undo_block ++ tr ∧
    tr = trace_of (played None (heap raise_undo_block)
                     (_finally (rollback raise_undo_block)))
                  (world raise_undo_block) ∧
    ∀ u, u ∈ _finally (rollback raise_undo_block) →
      times_invoked (autoCommit u) tr
      = if skipped None (heap raise_undo_block) u then 0 else 1.
Proof.
  assert (H1 : heap_ok raise_undo_block) by registered_heap_ok.
  assert (H2 : only_Exceptions (_finally (rollback raise_undo_block)))
    by raises_only_Exceptions.
  split; [exact H1|]. split; [exact H2|].
  exact (undo_failures_do_not_stop_playback None raise_undo_block H1 H2).
Defined.

(** The block raises [FirstError] and the undo played first raises
    [KeyboardInterrupt]: that call is the only one made. *)
Lemma non_Exception_aborts_interrupt_2 :
  heap_ok interrupt_2.1 ∧
  (λ p, invoked p.1) <$> __exit__ (Some FirstError) interrupt_2.1
    = Some [(interrupt_2.2, Some KeyboardInterrupt)] ∧
  ∃ m' r tr,
    __exit__ (Some FirstError) interrupt_2.1 = Some (m', r) ∧
    invoked m' = invoked interrupt_2.1 ++ tr ∧
    ∀ u e, (u, Some e) ∈ tr → isException e = false →
      r = Some e ∧
      with_exit (Some FirstError) interrupt_2.1 = Some (m', Some e) ∧
      ∃ tr0 pre post,
        tr = tr0 ++ [(u, Some e)] ∧
        _finally (rollback interrupt_2.1) = pre ++ u :: post ∧
        ∀ v, v ∈ post → times_invoked (autoCommit v) tr = 0.
Proof.
  assert (H1 : heap_ok interrupt_2.1) by registered_heap_ok.
  split; [exact H1|]. split; [reflexivity|].
  exact (non_Exception_aborts_playback (Some FirstError) interrupt_2.1 H1).
Defined.

(** One registration, clean exit. *)
Lemma exit_keeps_undo_list_one_push :
  heap_ok one_push.1 ∧
  ∃ m' r,
    __exit__ None one_push.1 = Some (m', r) ∧
    _finally (rollback m') = _finally (rollback one_push.1).
Proof.
  assert (H1 : heap_ok one_push.1) by registered_heap_ok.
  split; [exact H1 | exact (exit_keeps_undo_list None one_push.1 H1)].
Defined.


(** A [pushBottom] after one bottom registration, followed by a bottom, a
    top and a bottom registration: all five calls are made at a clean exit. *)
Lemma pushBottom_runs_after_bottom_1 :
  heap_ok bottom_1.1 ∧
  let p := pushBottom _append [VInt 2] [] bottom_1.1 in
  let m2 := register_all bottom_top_bottom p.1 in
  (λ x, world x.1) <$> __exit__ None m2
    = Some [VInt 0; VInt 1; VInt 2; VInt 1; VInt 2] ∧
  ∃ tops bottoms m' r tr,
    _finally (rollback m2)
      = tops ++ _finally (rollback bottom_1.1) ++ p.2 :: bottoms ∧
    bound_call <$> tops
      = reverse (registered_call <$>
                   filter (λ c, toTop c = true) bottom_top_bottom) ∧
    bound_call <$> bottoms
      = registered_call <$> filter (λ c, toTop c = false) bottom_top_bottom ∧
    __exit__ None m2 = Some (m', r) ∧
    invoked m' = invoked m2 ++ tr ∧
    (∀ v, v ∈ tops ++ _finally (rollback bottom_1.1) →
       v ∈ tr.*1 → p.2 ∈ tr.*1 → runs_before v p.2 tr) ∧
    (∀ v, v ∈ bottoms →
       v ∈ tr.*1 → p.2 ∈ tr.*1 → runs_before p.2 v tr).
Proof.
  assert (H1 : heap_ok bottom_1.1) by registered_heap_ok.
  split; [exact H1|]. intros p m2. split; [reflexivity|].
  exact (pushBottom_runs_after_registered
           _append [VInt 2] [] bottom_top_bottom None bottom_1.1 H1).
Defined.

(** A second [push] after one registration. *)
Lemma push_only_registers_second_push :
  heap_ok one_push.1 ∧
  let p := push _append [VInt 0] [] one_push.1 in
  world p.1 = world one_push.1 ∧
  invoked p.1 = invoked one_push.1 ∧
  _lastUndo (rollback p.1) = _lastUndo (rollback one_push.1) ∧
  _finally (rollback p.1) = p.2 :: _finally (rollback one_push.1) ∧
  bound_call p.2 = (_append, [VInt 0], []) ∧
  heap one_push.1 !! autoCommit p.2 = None ∧
  (∀ l, l ≠ autoCommit p.2 → heap p.1 !! l = heap one_push.1 !! l) ∧
  (∀ v, v ∈ _finally (rollback one_push.1) →
     autoCommit_0 (heap p.1) v = autoCommit_0 (heap one_push.1) v) ∧
  autoCommit_0 (heap p.1) p.2 = Some false ∧
  ∃ m2,
    setAutoCommit p.2 p.1 = Some m2 ∧
    rollback m2 = rollback p.1 ∧
    autoCommit_0 (heap m2) p.2 = Some true ∧
    ∃ m' r tr,
      __exit__ None m2 = Some (m', r) ∧
      invoked m' = invoked m2 ++ tr ∧
      times_invoked (autoCommit p.2) tr = 0.
Proof.
  assert (H1 : heap_ok one_push.1) by registered_heap_ok.
  split; [exact H1|].
  exact (push_only_registers true _append [VInt 0] [] one_push.1 H1).
Defined.

(** ** Further properties at work *)

(** A session with two exits and a [commitAll]. *)
Lemma new_context_keeps_flag_lists_session :
  ∃ m', run_ops session (__init__ setUp) = Some m' ∧ heap_ok m'.
Proof.
  eexists. split; [reflexivity|].
  exact (new_context_keeps_flag_lists session setUp _ eq_refl).
Defined.

(** The flag set before the session is still set after it. *)
Lemma flag_stays_set_session :
  ∃ m',
    run_ops session flagged = Some m' ∧
    autoCommit_0 (heap flagged) one_push.2 = Some true ∧
    autoCommit_0 (heap m') one_push.2 = Some true.
Proof.
  eexists. split; [reflexivity|]. split; [reflexivity|].
  exact (flag_stays_set session flagged _ one_push.2 eq_refl eq_refl).
Defined.

Lemma only_exit_invokes_quiet_session :
  ∃ m',
    Forall (λ o, is_exit o = false) quiet_session ∧
    run_ops quiet_session setUp = Some m' ∧
    world m' = world setUp ∧ invoked m' = invoked setUp.
Proof.
  assert (H : Forall (λ o, is_exit o = false) quiet_session)
    by (repeat constructor).
  eexists. split; [exact H|]. split; [reflexivity|].
  exact (only_exit_invokes quiet_session setUp _ H eq_refl).
Defined.

(** The block of [test_raise_undo]: [FirstError] was raised by the second
    tuple. *)
Lemma exit_raises_what_an_undo_raised_raise_undo :
  heap_ok raise_undo_block ∧
  ∃ m' r tr,
    __exit__ None raise_undo_block = Some (m', r) ∧
    invoked m' = invoked raise_undo_block ++ tr ∧
    ∀ e, r = Some e →
      ∃ u, u ∈ _finally (rollback raise_undo_block) ∧ (u, Some e) ∈ tr.
Proof.
  assert (H1 : heap_ok raise_undo_block) by registered_heap_ok.
  split; [exact H1|].
  exact (exit_raises_what_an_undo_raised None raise_undo_block H1).
Defined.

(** The block of [test_rollback]. *)
Lemma clean_exit_iff_no_undo_raised_rollback :
  heap_ok rollback_block ∧
  ∃ m' r tr,
    __exit__ None rollback_block = Some (m', r) ∧
    invoked m' = invoked rollback_block ++ tr ∧
    (r = None ↔ Forall (λ ev, ev.2 = None) tr).
Proof.
  assert (H1 : heap_ok rollback_block) by registered_heap_ok.
  split; [exact H1|].
  exact (clean_exit_iff_no_undo_raised rollback_block H1).
Defined.

(** The block of [test_rollback], left twice: 0, 1, 0, 1 are appended. *)
Lemma second_exit_replays_rollback :
  heap_ok rollback_block ∧
  only_Exceptions (_finally (rollback rollback_block)) ∧
  (λ m, world m) <$> run_ops [Exit None; Exit None] rollback_block
    = Some [VInt 0; VInt 1; VInt 0; VInt 1] ∧
  ∃ m1 r1 m2 r2,
    __exit__ None rollback_block = Some (m1, r1) ∧
    __exit__ None m1 = Some (m2, r2) ∧
    invoked m2
      = invoked rollback_block
        ++ trace_of (played None (heap rollback_block)
                       (_finally (rollback rollback_block)))
                    (world rollback_block)
        ++ trace_of (played None (heap rollback_block)
                       (_finally (rollback rollback_block)))
                    (world m1).
Proof.
  assert (H1 : heap_ok rollback_block) by registered_heap_ok.
  assert (H2 : only_Exceptions (_finally (rollback rollback_block)))
    by raises_only_Exceptions.
  split; [exact H1|]. split; [exact H2|]. split; [reflexivity|].
  exact (second_exit_replays None None rollback_block H1 H2).
Defined.

Lemma all_flagged_clean_exit_noop_flagged :
  Forall (λ u, autoCommit_0 (heap flagged) u = Some true)
         (_finally (rollback flagged)) ∧
  __exit__ None flagged = Some (flagged, None) ∧
  with_exit None flagged = Some (flagged, None).
Proof.
  assert (H : Forall (λ u, autoCommit_0 (heap flagged) u = Some true)
                     (_finally (rollback flagged))) by (repeat constructor).
  split; [exact H | exact (all_flagged_clean_exit_noop flagged H)].
Defined.

(** The undo that raises [KeyboardInterrupt] is played first. *)
Lemma exit_invokes_registered_at_most_once_interrupt_2 :
  heap_ok interrupt_2.1 ∧
  ∃ m' r us,
    __exit__ None interrupt_2.1 = Some (m', r) ∧
    invoked m' = invoked interrupt_2.1 ++ trace_of us (world interrupt_2.1) ∧
    us `sublist_of` _finally (rollback interrupt_2.1) ∧
    ∀ l, times_invoked l (trace_of us (world interrupt_2.1)) ≤ 1.
Proof.
  assert (H1 : heap_ok interrupt_2.1) by registered_heap_ok.
  split; [exact H1|].
  exact (exit_invokes_registered_at_most_once None interrupt_2.1 H1).
Defined.

(** The registration calls of [test_rollback_bottom], made after the
    [commitAll] of [test_commitAll]: the three undo calls return. *)
Lemma registrations_after_commitAll_rollback_bottom :
  (λ p, (snd <$> invoked p.1, world p.1, p.2))
    <$> __exit__ None (protected_block rollback_bottom_calls
                         (commitAll commitAll_block))
    = Some ([None; None; None], [VInt 0; VInt 1; VInt 2], None) ∧
  ∃ m' r tr,
    __exit__ None (protected_block rollback_bottom_calls
                     (commitAll commitAll_block)) = Some (m', r) ∧
    invoked m' = invoked commitAll_block ++ tr ∧
    bound_call <$> tr.*1
      `sublist_of` reverse (pushed rollback_bottom_calls)
                   ++ pushedBottom rollback_bottom_calls ∧
    (all_returned tr →
       r = None ∧
       (λ ev, (bound_call ev.1, ev.2)) <$> tr
         = [((_append, [VInt 0], []), None);
            ((_append, [VInt 1], []), None);
            ((_append, [VInt 2], []), None)]).
Proof.
  split; [reflexivity|].
  exact (registrations_after_commitAll rollback_bottom_calls commitAll_block).
Defined.

(** [setAutoCommit] on the tuple discarded by [commitAll]. *)
Lemma setAutoCommit_unregistered_after_commitAll :
  ∃ m1 m' r,
    setAutoCommit one_push.2 after_commitAll = Some m1 ∧
    (autoCommit one_push.2
       ∉ autoCommit <$> _finally (rollback after_commitAll)) ∧
    __exit__ None after_commitAll = Some (m', r) ∧
    ∃ m1',
      __exit__ None m1 = Some (m1', r) ∧
      world m1' = world m' ∧ invoked m1' = invoked m'.
Proof.
  assert (H : autoCommit one_push.2
              ∉ (autoCommit <$> _finally (rollback after_commitAll))).
  { intros Hin. cbn in Hin.
    apply elem_of_cons in Hin as [Hin|Hin];
      [by vm_compute in Hin | by apply elem_of_nil in Hin]. }
  eexists _, _, _. split; [reflexivity|]. split; [exact H|].
  split; [reflexivity|].
  exact (setAutoCommit_unregistered_no_effect
           None one_push.2 after_commitAll _ _ _ eq_refl H eq_refl).
Defined.

End Scenarios.
